(** * Actor Alphabetizer: a shallow embedding of [scripts/main.js]

    The module organises the actors of a Foundry world into letter folders.
    This file embeds the functions of [scripts/main.js] and states the
    properties of its specification over them.

    Conventions of the embedding.
    - A JavaScript string is the list of its UTF-16 code units ([jsstring]).
    - A value that may be [null], [undefined] or a string is a [jsval].
    - A folder document is a record whose [f_folder] field is the parent
      document itself, as [cur.folder] is in the source; the host keeps the
      parent chain of a folder finite, which the inductive type expresses.
    - [game.folders] and [game.actors.contents] are lists in collection
      order; the host services that create folders and update actors are
      written out as functions on these lists. *)

From Stdlib Require Import DecimalString.
From stdpp Require Import gmap list sorting strings.

#[local] Set Warnings "-clear-no-such-hyp,-register-all".

Local Open Scope N_scope.

(** ** JavaScript strings *)

Abbreviation codeunit := N (only parsing).
Abbreviation jsstring := (list N).

(** Literal of ASCII characters. *)
Definition js (s : String.string) : jsstring :=
  map Ascii.N_of_ascii (String.list_ascii_of_string s).

Inductive jsval :=
  | JUndefined
  | JNull
  | JStr (s : jsstring).

(** [String(v)] *)
Definition String_ (v : jsval) : jsstring :=
  match v with
  | JUndefined => js "undefined"%string
  | JNull => js "null"%string
  | JStr s => s
  end.

(** [!s] for a string: only the empty string is falsy. *)
Definition falsy (s : jsstring) : bool :=
  match s with
  | [] => true
  | _ :: _ => false
  end.

(** [v ?? d] for a string default *)
Definition nullish_or (v : jsval) (d : jsstring) : jsstring :=
  match v with
  | JStr s => s
  | _ => d
  end.

(** WhiteSpace and LineTerminator code points, the ones [trim] strips. *)
Definition isWhiteSpace (c : codeunit) : bool :=
  (c =? 9) || (c =? 10) || (c =? 11) || (c =? 12) || (c =? 13) || (c =? 32)
  || (c =? 160) || (c =? 5760) || ((8192 <=? c) && (c <=? 8202))
  || (c =? 8232) || (c =? 8233) || (c =? 8239) || (c =? 8287)
  || (c =? 12288) || (c =? 65279).

Fixpoint trimStart (s : jsstring) : jsstring :=
  match s with
  | [] => []
  | c :: s' => if isWhiteSpace c then trimStart s' else s
  end.

Definition trimEnd (s : jsstring) : jsstring := rev (trimStart (rev s)).

Definition trim (s : jsstring) : jsstring := trimEnd (trimStart s).

(** The character class [[A-Za-z]]. *)
Definition isAsciiLetter (c : codeunit) : bool :=
  ((65 <=? c) && (c <=? 90)) || ((97 <=? c) && (c <=? 122)).

(** [s.match(/[A-Za-z]/)]: the first match, as [m[0]], or [None] for [null]. *)
Fixpoint matchLetter (s : jsstring) : option jsstring :=
  match s with
  | [] => None
  | c :: s' => if isAsciiLetter c then Some [c] else matchLetter s'
  end.

(** [toUpperCase] on code units; only ever applied to a match of
    [[A-Za-z]], where it is the ASCII case fold. *)
Definition upperUnit (c : codeunit) : codeunit :=
  if (97 <=? c) && (c <=? 122) then c - 32 else c.

Definition toUpperCase (s : jsstring) : jsstring := map upperUnit s.

(** [normalizeLetter(name)] *)
Definition normalizeLetter (name : jsval) : option jsstring :=
  let s := trim (nullish_or name []) in
  match matchLetter s with
  | Some m0 => Some (toUpperCase m0)
  | None => None
  end.

(** [shortId(id)] : [String(id ?? "").slice(-4)] *)
Definition slice_last (n : nat) (s : jsstring) : jsstring :=
  drop (length s - n) s.

Definition shortId (id : jsval) : jsstring :=
  slice_last 4 (nullish_or id []).

(** The reading of the specification: the first ASCII letter of the name,
    scanning left to right over the whole string, case-folded to upper
    case. *)
Definition isUpperAscii (c : codeunit) : bool := (65 <=? c) && (c <=? 90).

Definition spec_firstLetter (name : jsval) : option jsstring :=
  match list_find (λ c, isAsciiLetter c = true) (nullish_or name []) with
  | Some (_, c) => Some [if isUpperAscii c then c else c - 32]
  | None => None
  end.

(** ** Folder and actor documents *)

(** Document ids are strings. *)
Abbreviation id := (list N) (only parsing).

Local Unset Elimination Schemes.

Inductive Folder := mkFolder {
  f_id : id;
  f_name : jsstring;
  f_type : jsstring;
  f_folder : option Folder
}.

Local Set Elimination Schemes.

Record Actor := mkActor {
  a_id : id;
  a_name : jsval;
  a_type : jsval;
  a_folder : option Folder
}.

(** [x.folder?.id], with [None] for [undefined] *)
Definition folderIdOf (o : option Folder) : option id := f_id <$> o.

(** [folderBreadcrumb(folder)] *)
Fixpoint crumbParts (cur : Folder) : list jsstring :=
  match cur with
  | mkFolder _ name _ (Some p) => name :: crumbParts p
  | mkFolder _ name _ None => [name]
  end.

Fixpoint join (sep : jsstring) (parts : list jsstring) : jsstring :=
  match parts with
  | [] => []
  | [p] => p
  | p :: ps => p ++ sep ++ join sep ps
  end.

Definition folderBreadcrumb (folder : Folder) : jsstring :=
  join (js " / "%string) (rev (crumbParts folder)).

(** [isDescendantFolder(folder, ancestorId)] *)
Fixpoint isDescendantFolder (folder : Folder) (ancestorId : id) : bool :=
  match folder with
  | mkFolder _ _ _ (Some p) =>
      if bool_decide (f_id p = ancestorId) then true
      else isDescendantFolder p ancestorId
  | mkFolder _ _ _ None => false
  end.

(** [actorInScope(actor, parentId, includeSubfolders)] *)
Definition actorInScope (actor : Actor) (parentId : option id)
    (includeSubfolders : bool) : bool :=
  match parentId with
  | None => true
  | Some pid =>
      if bool_decide (folderIdOf (a_folder actor) = Some pid) then true
      else if negb includeSubfolders then false
      else match a_folder actor with
           | None => false
           | Some f => isDescendantFolder f pid
           end
  end.

(** The strict ancestors of a folder: the folders of its parent chain. *)
Inductive ancestor (q : Folder) : Folder → Prop :=
  | ancestor_parent f : f_folder f = Some q → ancestor q f
  | ancestor_up f p : f_folder f = Some p → ancestor q p → ancestor q f.

(** [f] is a strict descendant of the folder identified by [rootId]. *)
Definition strictDescendantOf (f : Folder) (rootId : id) : Prop :=
  ∃ q, ancestor q f ∧ f_id q = rootId.

Record World := mkWorld {
  w_folders : list Folder;   (* game.folders *)
  w_actors : list Actor      (* game.actors.contents *)
}.

Definition Actor_ : jsstring := Eval cbv in js "Actor"%string.

(** ** The descendant index *)

(** [buildFolderChildrenMap(actorFolders)]; the key [None] is [null]. *)
Definition buildFolderChildrenMap (actorFolders : list Folder)
    : gmap (option id) (list Folder) :=
  foldl (λ children f,
           let pid := folderIdOf (f_folder f) in
           let children :=
             match children !! pid with
             | Some _ => children
             | None => <[pid := []]> children
             end in
           <[pid := default [] (children !! pid) ++ [f]]> children)
        ∅ actorFolders.

(** The loop [for (const k of kids) for (const x of dfs(k.id)) set.add(x)],
    over the recursive call [rec]. *)
Fixpoint addKids (rec : gmap id (gset id) → id → option (gset id * gmap id (gset id)))
    (kids : list Folder) (set : gset id) (memo : gmap id (gset id))
    : option (gset id * gmap id (gset id)) :=
  match kids with
  | [] => Some (set, memo)
  | k :: kids' =>
      match rec memo (f_id k) with
      | Some (sk, memo') => addKids rec kids' (set ∪ sk) memo'
      | None => None
      end
  end.

(** The closure [dfs] of [buildDescendantsMemo]; [fuel] bounds the depth of
    the recursion, and [None] stands for a recursion that does not return.
    The result is the returned set and the memo table after the call. *)
Fixpoint dfs (fuel : nat) (children : gmap (option id) (list Folder))
    (memo : gmap id (gset id)) (folderId : id)
    : option (gset id * gmap id (gset id)) :=
  match fuel with
  | O => None
  | S fuel' =>
      match memo !! folderId with
      | Some s => Some (s, memo)
      | None =>
          let kids := default [] (children !! Some folderId) in
          match addKids (dfs fuel' children) kids {[folderId]} memo with
          | Some (set, memo') => Some (set, <[folderId := set]> memo')
          | None => None
          end
      end
  end.

(** The loop [for (const f of actorFolders) dfs(f.id)]. *)
Fixpoint dfsAll (fuel : nat) (children : gmap (option id) (list Folder))
    (fs : list Folder) (memo : gmap id (gset id)) : option (gmap id (gset id)) :=
  match fs with
  | [] => Some memo
  | f :: fs' =>
      match dfs fuel children memo (f_id f) with
      | Some (_, memo') => dfsAll fuel children fs' memo'
      | None => None
      end
  end.

(** [buildDescendantsMemo(actorFolders)] *)
Definition buildDescendantsMemo (fuel : nat) (actorFolders : list Folder)
    : option (gmap id (gset id)) :=
  let children := buildFolderChildrenMap actorFolders in
  dfsAll fuel children actorFolders ∅.

(** [countActorsForFolder(folderId, actors, descendantsMemo)], as the pair
    [(direct, withSubfolders)]. *)
Definition countActorsForFolder (folderId : id) (actors : list Actor)
    (descendantsMemo : gmap id (gset id)) : nat * nat :=
  let direct :=
    length (filter (λ a, folderIdOf (a_folder a) = Some folderId) actors) in
  let descSet := default {[folderId]} (descendantsMemo !! folderId) in
  let withSubfolders :=
    length (filter (λ a, match a_folder a with
                         | Some f => bool_decide (f_id f ∈ descSet)
                         | None => false
                         end = true) actors) in
  (direct, withSubfolders).

(** The direct children of the folder [p] among [fs]. *)
Definition kidsOf (fs : list Folder) (p : id) : list Folder :=
  filter (λ f, folderIdOf (f_folder f) = Some p) fs.

(** [childOf fs k p]: some folder of [fs] has id [k] and parent id [p]. *)
Definition childOf (fs : list Folder) (k p : id) : Prop :=
  ∃ f, f ∈ fs ∧ f_id f = k ∧ folderIdOf (f_folder f) = Some p.

(** A forest is acyclic when no id is its own strict ancestor. *)
Definition acyclic (fs : list Folder) : Prop :=
  ∀ x, ¬ tc (childOf fs) x x.

(** The value [memo.get(k)] as a set, empty when absent. *)
Definition memoSet (memo : gmap id (gset id)) (k : id) : gset id :=
  default ∅ (memo !! k).

(** ** The folder catalogue of the dialog *)

Record RawEntry := mkRaw {
  r_id : id;
  r_crumb : jsstring;
  r_direct : nat;
  r_withSubfolders : nat
}.

Record OptionEntry := mkOption {
  o_id : jsstring;
  o_name : jsstring
}.

(** A count rendered by a template literal: its decimal digits. *)
Definition showNat (n : nat) : jsstring :=
  js (NilZero.string_of_uint (Nat.to_uint n)).

(** [actorFolders.map(f => ...)] of [openAlphabetizerDialog] *)
Definition rawEntries (descendantsMemo : gmap id (gset id))
    (actorFolders : list Folder) (allActors : list Actor) : list RawEntry :=
  map (λ f,
         let crumb := folderBreadcrumb f in
         let '(direct, withSubfolders) :=
           countActorsForFolder (f_id f) allActors descendantsMemo in
         mkRaw (f_id f) crumb direct withSubfolders)
      actorFolders.

(** [countsByCrumb] *)
Definition countsByCrumb (raw : list RawEntry) : gmap jsstring nat :=
  foldl (λ m r, <[r_crumb r := (default 0 (m !! r_crumb r) + 1)%nat]> m) ∅ raw.

(** The body of [raw.map(r => ...)]: the option shown for one folder. *)
Definition optionOf (counts : gmap jsstring nat) (r : RawEntry) : OptionEntry :=
  let isDup := bool_decide (1 < default 0 (counts !! r_crumb r))%nat in
  let suffix :=
    if isDup then js " ["%string ++ shortId (JStr (r_id r)) ++ js "]"%string
    else [] in
  let countLabel :=
    showNat (r_direct r) ++ js "/"%string ++ showNat (r_withSubfolders r) in
  mkOption (r_id r)
           (r_crumb r ++ suffix ++ js " ("%string ++ countLabel ++ js ")"%string).

(** The folder options before they are sorted. *)
Definition folderOptions (descendantsMemo : gmap id (gset id))
    (actorFolders : list Folder) (allActors : list Actor) : list OptionEntry :=
  let raw := rawEntries descendantsMemo actorFolders allActors in
  map (optionOf (countsByCrumb raw)) raw.

(** The comparator of the final sort, over the host's [localeCompare]. *)
Definition optionLe (localeCompare : jsstring → jsstring → bool)
    (a b : OptionEntry) : Prop :=
  localeCompare (o_name a) (o_name b) = true.

#[global] Instance optionLe_dec lc : RelDecision (optionLe lc).
Proof. intros a b. unfold optionLe. apply _. Defined.

(** What [openAlphabetizerDialog] does: it warns a user who is not a GM,
    and otherwise renders the dialog with the array [options]. *)
Inductive DialogOutcome :=
  | WarnGMRequired
  | Rendered (options : list OptionEntry).

(** [openAlphabetizerDialog()], up to the markup of the form.  [isGM] is
    [game.user.isGM]; [localeCompare] is the host's collation,
    [a.localeCompare(b) <= 0] as a boolean; [None] stands for a descendant
    index whose construction does not return, on a cyclic folder store. *)
Definition openAlphabetizerDialog (isGM : bool)
    (localeCompare : jsstring → jsstring → bool)
    (fuel : nat) (w : World) : option DialogOutcome :=
  if negb isGM then Some WarnGMRequired
  else
    let actorFolders := filter (λ f, f_type f = Actor_) (w_folders w) in
    let allActors := w_actors w in
    match buildDescendantsMemo fuel actorFolders with
    | None => None
    | Some descendantsMemo =>
        Some (Rendered
          (mkOption (js "root"%string)
             (js "Root (all Actors) ("%string ++ showNat (length allActors)
                ++ js ")"%string)
           :: merge_sort (optionLe localeCompare)
                (folderOptions descendantsMemo actorFolders allActors)))
    end.

(** ** The reconciler *)

Record Config := mkConfig {
  createAllLetters : bool;
  groupByType : bool;
  parentFolderId : option id;   (* [None] is [null]: the root *)
  includeSubfolders : bool
}.

Inductive Notification :=
  | WarnNoActorsInScope
  | WarnNoUsableLetter
  | InfoNothingToMove
  | InfoMoved (n : nat) (grouped : bool).

(** What one run leaves behind: the world after it, the updates it
    submitted to the host, and the notification it raised. *)
Record Outcome := mkOutcome {
  out_world : World;
  out_updates : list (id * id);   (* { _id, folder } *)
  out_notice : Notification
}.

(** [new Set(xs)] followed by [Array.from]: first occurrences, in order. *)
Definition setFrom (xs : list jsstring) : list jsstring :=
  foldl (λ acc x, if bool_decide (x ∈ acc) then acc else acc ++ [x]) [] xs.

(** The default order of [Array.prototype.sort] on strings: code units,
    lexicographically. *)
Fixpoint jsstr_le (a b : jsstring) : bool :=
  match a, b with
  | [], _ => true
  | _ :: _, [] => false
  | x :: a', y :: b' => (x <? y) || ((x =? y) && jsstr_le a' b')
  end.

Definition jsstrLe (a b : jsstring) : Prop := jsstr_le a b = true.

#[global] Instance jsstrLe_dec : RelDecision jsstrLe.
Proof. intros a b. unfold jsstrLe. apply _. Defined.

Definition sortStrings (xs : list jsstring) : list jsstring :=
  merge_sort jsstrLe xs.

(** [.filter(Boolean)] on the classified letters: [null] and the empty
    string are dropped. *)
Definition filterBoolean (xs : list (option jsstring)) : list jsstring :=
  omap (λ o, match o with
             | Some (c :: s) => Some (c :: s)
             | _ => None
             end) xs.

(** ["ABCDEFGHIJKLMNOPQRSTUVWXYZ".split("")] *)
Definition alphabet : list jsstring :=
  Eval cbv in map (λ c, [c]) (js "ABCDEFGHIJKLMNOPQRSTUVWXYZ"%string).

(** The test of [findChildFolder]. *)
Definition childFolderTest (name : jsstring) (parentId : option id)
    (f : Folder) : bool :=
  bool_decide (f_type f = Actor_) && bool_decide (f_name f = name) &&
  match parentId with
  | None => match f_folder f with None => true | Some _ => false end
  | Some p => bool_decide (folderIdOf (f_folder f) = Some p)
  end.

(** [findChildFolder(name, parentId)] over [game.folders] *)
Definition findChildFolder (folders : list Folder) (name : jsstring)
    (parentId : option id) : option Folder :=
  snd <$> list_find (λ f, childFolderTest name parentId f = true) folders.

(** Modelled from the spec: the host's folder directory, which resolves a
    folder reference ([game.folders.get(id)]) to the first document of the
    collection bearing that id, if any. *)
Definition resolveFolder (folders : list Folder) (fid : id) : option Folder :=
  snd <$> list_find (λ f, f_id f = fid) folders.

Section Host.

(** The identifier the host gives to the next folder it creates, as a
    function of the folder collection at that time. *)
Variable newId : list Folder → id.

(** Modelled from the spec: the host's folder creation service,
    [Folder.createDocuments([{ name, type: "Actor", folder: parentId }])],
    which accepts a name, a kind and a parent id or null and returns the
    created folder; its parent is the folder the reference resolves to. *)
Definition createFolder (folders : list Folder) (name : jsstring)
    (parentId : option id) : Folder :=
  mkFolder (newId folders) name Actor_ (parentId ≫= resolveFolder folders).

(** [ensureFolder(name, parentId)]: the id returned and [game.folders]
    after the call. *)
Definition ensureFolder (name : jsstring) (parentId : option id)
    (folders : list Folder) : id * list Folder :=
  match findChildFolder folders name parentId with
  | Some existing => (f_id existing, folders)
  | None =>
      let created := createFolder folders name parentId in
      (f_id created, folders ++ [created])
  end.

(** The loop that ensures the type folders, filling [typeFolderIds]. *)
Definition ensureTypeFolders (parentFolderId : option id) (types : list jsval)
    (st : gmap jsstring id * list Folder) : gmap jsstring id * list Folder :=
  foldl (λ '(typeFolderIds, folders) t,
           let '(typeFolderId, folders') :=
             ensureFolder (String_ t) parentFolderId folders in
           (<[String_ t := typeFolderId]> typeFolderIds, folders'))
        st types.

(** The key of a bucket in [letterFolderIds]. *)
Definition bucketKey (groupByType : bool) (t : jsval) (L : jsstring) : jsstring :=
  if groupByType then String_ t ++ js "::"%string ++ L
  else js "::"%string ++ L.

(** The inner loop over the letters, for one type [t]. *)
Definition ensureLettersOf (groupByType : bool) (baseParentId : option id)
    (t : jsval) (letters : list jsstring)
    (st : gmap jsstring id * list Folder) : gmap jsstring id * list Folder :=
  foldl (λ '(letterFolderIds, folders) L,
           let '(i, folders') := ensureFolder L baseParentId folders in
           (<[bucketKey groupByType t L := i]> letterFolderIds, folders'))
        st letters.

(** [baseParentId] for the type [t]; an absent entry of [typeFolderIds] is
    [undefined], which the lookup and the host both treat as the root. *)
Definition baseParentOf (groupByType : bool) (parentFolderId : option id)
    (typeFolderIds : gmap jsstring id) (t : jsval) : option id :=
  if groupByType then typeFolderIds !! String_ t else parentFolderId.

(** The loop that ensures the letter folders, filling [letterFolderIds]. *)
Definition ensureLetterFolders (groupByType : bool) (parentFolderId : option id)
    (typeFolderIds : gmap jsstring id) (types : list jsval)
    (letters : list jsstring)
    (st : gmap jsstring id * list Folder) : gmap jsstring id * list Folder :=
  foldl (λ st t,
           let baseParentId :=
             baseParentOf groupByType parentFolderId typeFolderIds t in
           ensureLettersOf groupByType baseParentId t letters st)
        st types.

(** What the move loop does with one actor. *)
Inductive Placement :=
  | SkipNoLetter                (* [if (!L) continue] *)
  | SkipNoDestination           (* [if (!destFolderId) continue] *)
  | SkipAlreadyThere            (* [if (a.folder?.id === destFolderId) continue] *)
  | MoveTo (destFolderId : id).

Definition placement (groupByType : bool) (letterFolderIds : gmap jsstring id)
    (a : Actor) : Placement :=
  match normalizeLetter (a_name a) with
  | None => SkipNoLetter
  | Some L =>
      if falsy L then SkipNoLetter
      else
        let key := bucketKey groupByType (a_type a) L in
        match letterFolderIds !! key with
        | None => SkipNoDestination
        | Some destFolderId =>
            if falsy destFolderId then SkipNoDestination
            else if bool_decide (folderIdOf (a_folder a) = Some destFolderId)
            then SkipAlreadyThere
            else MoveTo destFolderId
        end
  end.

(** The array [updates]. *)
Definition planUpdates (groupByType : bool) (letterFolderIds : gmap jsstring id)
    (actors : list Actor) : list (id * id) :=
  omap (λ a, match placement groupByType letterFolderIds a with
             | MoveTo dest => Some (a_id a, dest)
             | _ => None
             end) actors.

(** Modelled from the spec: the host's entity batch update service,
    [Actor.updateDocuments(updates)], which takes pairs of an entity id and
    a new folder id and sets the folder of the actor named by each update,
    in turn. *)
Definition applyUpdate (folders : list Folder) (u : id * id) (a : Actor) : Actor :=
  if bool_decide (a_id a = u.1)
  then mkActor (a_id a) (a_name a) (a_type a) (resolveFolder folders u.2)
  else a.

Definition updateDocuments (folders : list Folder) (updates : list (id * id))
    (actors : list Actor) : list Actor :=
  foldl (λ acts u, map (applyUpdate folders u) acts) actors updates.

(** The actors in scope, step 1 of [runAlphabetizer]. *)
Definition scopedActors (cfg : Config) (w : World) : list Actor :=
  filter (λ a, actorInScope a (parentFolderId cfg) (includeSubfolders cfg) = true)
         (w_actors w).

(** The letters to create, step 2. *)
Definition lettersFor (cfg : Config) (actors : list Actor) : list jsstring :=
  if createAllLetters cfg then alphabet
  else sortStrings
         (setFrom (filterBoolean (map (λ a, normalizeLetter (a_name a)) actors))).

(** The array [types], step 3. *)
Definition typesFor (cfg : Config) (actors : list Actor) : list jsval :=
  if groupByType cfg
  then map JStr (sortStrings (setFrom (map (λ a, String_ (a_type a)) actors)))
  else [JNull].

(** The folder-ensure pass, step 3: both maps and [game.folders] after it. *)
Definition ensurePass (cfg : Config) (types : list jsval)
    (letters : list jsstring) (folders : list Folder)
    : gmap jsstring id * gmap jsstring id * list Folder :=
  let '(typeFolderIds, folders1) :=
    if groupByType cfg
    then ensureTypeFolders (parentFolderId cfg) types (∅, folders)
    else (∅, folders) in
  let '(letterFolderIds, folders2) :=
    ensureLetterFolders (groupByType cfg) (parentFolderId cfg) typeFolderIds
      types letters (∅, folders1) in
  (typeFolderIds, letterFolderIds, folders2).

(** [runAlphabetizer(config)] *)
Definition runAlphabetizer (cfg : Config) (w : World) : Outcome :=
  let actors := scopedActors cfg w in
  match actors with
  | [] => mkOutcome w [] WarnNoActorsInScope
  | _ :: _ =>
      let letters := lettersFor cfg actors in
      match letters with
      | [] => mkOutcome w [] WarnNoUsableLetter
      | _ :: _ =>
          let types := typesFor cfg actors in
          let '(_, letterFolderIds, folders) :=
            ensurePass cfg types letters (w_folders w) in
          let updates := planUpdates (groupByType cfg) letterFolderIds actors in
          match updates with
          | [] => mkOutcome (mkWorld folders (w_actors w)) [] InfoNothingToMove
          | _ :: _ =>
              mkOutcome
                (mkWorld folders (updateDocuments folders updates (w_actors w)))
                updates
                (InfoMoved (length updates) (groupByType cfg))
          end
      end
  end.

(** The folders a run created: those appended to [game.folders]. *)
Definition createdBy (cfg : Config) (w : World) : list Folder :=
  drop (length (w_folders w)) (w_folders (out_world (runAlphabetizer cfg w))).

End Host.

(** ** Invariants of the descendant index, used in the proofs *)

(** Every set of the index holds its own key. *)
Definition selfIn (memo : gmap id (gset id)) : Prop :=
  ∀ x s, memo !! x = Some s → x ∈ s.

(** The index is closed: the set of an entry is its key together with the
    sets of its direct children, which all have an entry. *)
Definition closedIndex (fs : list Folder) (memo : gmap id (gset id)) : Prop :=
  ∀ x s, memo !! x = Some s →
    s = {[x]} ∪ ⋃ (memoSet memo ∘ f_id <$> kidsOf fs x)
    ∧ ∀ k, k ∈ kidsOf fs x → is_Some (memo !! f_id k).

(** What a call of [dfs] that returns guarantees, given a closed table. *)
Definition callSpec (fs : list Folder)
    (rec : gmap id (gset id) → id → option (gset id * gmap id (gset id)))
    : Prop :=
  ∀ m y s m', rec m y = Some (s, m') → closedIndex fs m →
    m ⊆ m' ∧ m' !! y = Some s ∧ closedIndex fs m'
    ∧ ∀ z, m !! z = None → is_Some (m' !! z) → rtc (childOf fs) z y.

(** The ids of a folder list. *)
Definition idsOf (fs : list Folder) : gset id := list_to_set (f_id <$> fs).

(** Induction along the parent chain of a folder. *)
Fixpoint Folder_chain_ind (P : Folder → Prop)
    (Hroot : ∀ i n t, P (mkFolder i n t None))
    (Hchild : ∀ i n t p, P p → P (mkFolder i n t (Some p)))
    (f : Folder) : P f :=
  match f with
  | mkFolder i n t None => Hroot i n t
  | mkFolder i n t (Some p) => Hchild i n t p (Folder_chain_ind P Hroot Hchild p)
  end.


(** ** Predicates on the folder store, used in the proofs *)

(** A parent reference the host can resolve: [null], or the id of a folder
    of the store. *)
Definition resolvable (folders : list Folder) (parentId : option id) : Prop :=
  match parentId with
  | None => True
  | Some p => ∃ f, f ∈ folders ∧ f_id f = p
  end.

(** [f] is an Actor folder named [name] directly under [parentId]. *)
Definition isChild (name : jsstring) (parentId : option id) (f : Folder) : Prop :=
  f_type f = Actor_ ∧ f_name f = name ∧ folderIdOf (f_folder f) = parentId.

(** Two folders that bear the same name under the same parent. *)
Definition twins (f g : Folder) : Prop :=
  f_name f = f_name g ∧ folderIdOf (f_folder f) = folderIdOf (f_folder g).

(** The folders appended to [base] are Actor folders, and none of them has
    a twin among the other Actor folders of the store. *)
Definition createdDistinct (base folders : list Folder) : Prop :=
  ∀ i c, folders !! i = Some c → (length base ≤ i)%nat →
    f_type c = Actor_
    ∧ ∀ j g, folders !! j = Some g → i ≠ j → f_type g = Actor_ → ¬ twins g c.

(** A generic ensure loop: one folder per element, recorded under a key. *)
Definition ensureEach {X} (newId : list Folder → id)
    (key name : X → jsstring) (parentId : option id) (xs : list X)
    (st : gmap jsstring id * list Folder) : gmap jsstring id * list Folder :=
  foldl (λ '(m, folders) x,
           let '(i, folders') := ensureFolder newId (name x) parentId folders in
           (<[key x := i]> m, folders'))
        st xs.


(** The destination that a store resolves for the bucket [(t, L)]: the
    letter folder found under the partition's base folder. *)
Definition planOf (groupByType : bool) (parentFolderId : option id)
    (folders : list Folder) (t : jsval) (L : jsstring) : option id :=
  f_id <$> findChildFolder folders L
             (if groupByType
              then f_id <$> findChildFolder folders (String_ t) parentFolderId
              else parentFolderId).

(** The store already holds every folder that the buckets of [types] and
    [letters] need. *)
Definition allEnsured (groupByType : bool) (parentFolderId : option id)
    (folders : list Folder) (types : list jsval) (letters : list jsstring) : Prop :=
  (groupByType = true →
   ∀ t, t ∈ types → is_Some (findChildFolder folders (String_ t) parentFolderId))
  ∧ ∀ t L, t ∈ types → L ∈ letters →
      is_Some (planOf groupByType parentFolderId folders t L).

(** Successive runs, each on the world the previous one left. *)
Definition runMany (newId : list Folder → id) (cfgs : list Config) (w : World)
    : World :=
  foldl (λ w cfg, out_world (runAlphabetizer newId cfg w)) w cfgs.

(** The partition of an actor, as an element of [types]. *)
Definition partitionOf (cfg : Config) (a : Actor) : jsval :=
  if groupByType cfg then JStr (String_ (a_type a)) else JNull.

(** A host that numbers the folders it creates, for the examples. *)
Definition sampleNewId (folders : list Folder) : id :=
  js "new"%string ++ showNat (length folders).

(** All the updates of a batch, applied to one actor. *)
Definition applyAll (folders : list Folder) (updates : list (id * id))
    (a : Actor) : Actor :=
  foldl (λ a u, applyUpdate folders u a) a updates.

(** The folder id an actor has once the run that planned [plan] for it is
    over. *)
Definition folderAfter (groupByType : bool) (plan : gmap jsstring id)
    (a : Actor) : option id :=
  match placement groupByType plan a with
  | MoveTo dest => Some dest
  | _ => folderIdOf (a_folder a)
  end.



(** The world of the end-to-end scenario: four actors at the root and no
    folder yet. *)
Definition sampleActor (i n ty : String.string) : Actor :=
  mkActor (js i) (JStr (js n)) (JStr (js ty)) None.

Definition sampleWorld : World :=
  mkWorld []
    [sampleActor "a1" "Aang" "hero"; sampleActor "a2" "bob" "npc";
     sampleActor "a3" "Zuko" "villain"; sampleActor "a4" "100 Goblins" "npc"]%string.

(** The same actors in a world that already has a root folder named A. *)
Definition sampleWorldWithA : World :=
  mkWorld [mkFolder (js "fA"%string) (js "A"%string) Actor_ None]
          (w_actors sampleWorld).

(** The options a rendered dialog shows. *)
Definition shownOptions (r : option DialogOutcome) : list OptionEntry :=
  match r with
  | Some (Rendered options) => options
  | _ => []
  end.

(** * Further definitions *)

(** [c] and [d] are the same code unit, or the same ASCII letter in
    either case. *)
Definition sameUpToCase (c d : codeunit) : Prop :=
  c = d
  ∨ (isAsciiLetter c = true ∧ isAsciiLetter d = true ∧ upperUnit c = upperUnit d).

(** Every member of a set of the index is the key or one of its
    descendants. *)
Definition soundIndex (fs : list Folder) (memo : gmap id (gset id)) : Prop :=
  ∀ x s, memo !! x = Some s → ∀ y, y ∈ s → rtc (childOf fs) y x.

(** No key of the index lies on a parent cycle. *)
Definition cycleFree (fs : list Folder) (memo : gmap id (gset id)) : Prop :=
  ∀ x, is_Some (memo !! x) → ¬ tc (childOf fs) x x.

(** Every parent document of a folder of the list is in the list. *)
Definition parentClosed (fs : list Folder) : Prop :=
  ∀ f p, f ∈ fs → f_folder f = Some p → p ∈ fs.

(** The depth of the folder that bears an id, 0 when there is none. *)
Definition depthOf (fs : list Folder) (i : id) : nat :=
  default 0%nat (length ∘ crumbParts <$> resolveFolder fs i).

(** ** The Run button of the dialog *)

(** The fields of the form as [FormData.get] returns them: a string, or
    [null] for an unchecked box or a missing field. *)
Record FormData := mkFormData {
  fd_createAllLetters : jsval;
  fd_groupByType : jsval;
  fd_parentFolder : jsval;
  fd_includeSubfolders : jsval
}.

(** [fd.get(name) === "on"] *)
Definition isOn (v : jsval) : bool :=
  match v with
  | JStr s => bool_decide (s = js "on"%string)
  | _ => false
  end.

(** The configuration that the callback of the Run button hands to
    [runAlphabetizer]. *)
Definition configOfForm (fd : FormData) : Config :=
  let createAllLetters := isOn (fd_createAllLetters fd) in
  let groupByType := isOn (fd_groupByType fd) in
  let includeSubfolders := isOn (fd_includeSubfolders fd) in
  let parentFolderRaw :=
    String_ (JStr (nullish_or (fd_parentFolder fd) (js "root"%string))) in
  let parentFolderId :=
    if bool_decide (parentFolderRaw = js "root"%string) then None
    else Some parentFolderRaw in
  mkConfig createAllLetters groupByType parentFolderId includeSubfolders.

(** The callback of the Run button. *)
Definition runCallback (newId : list Folder → id) (fd : FormData) (w : World)
    : Outcome :=
  runAlphabetizer newId (configOfForm fd) w.

(** The first option of the dialog. *)
Definition rootOption (w : World) : OptionEntry :=
  mkOption (js "root"%string)
    (js "Root (all Actors) ("%string ++ showNat (length (w_actors w))
       ++ js ")"%string).

(** [f] is the folder of the bucket of type [ty] and letter [L] in the
    store: the Actor folder named [L] under the configured root or, when
    grouping, under the Actor folder named after the type under the root. *)
Definition bucketFolder (cfg : Config) (folders : list Folder)
    (ty : jsval) (L : jsstring) (f : Folder) : Prop :=
  f ∈ folders
  ∧ if groupByType cfg
    then ∃ ft, ft ∈ folders
               ∧ isChild (String_ ty) (parentFolderId cfg) ft
               ∧ isChild L (Some (f_id ft)) f
    else isChild L (parentFolderId cfg) f.

(** A host whose new ids are never in use and never empty. *)
Definition freshHost (newId : list Folder → id) : Prop :=
  ∀ fs : list Folder, (newId fs ∉ f_id <$> fs) ∧ newId fs ≠ [].

(** The store of the host: folders with distinct non-empty ids, actors
    with distinct ids, each in no folder or in a folder of the store. *)
Definition wellFormed (w : World) : Prop :=
  NoDup (f_id <$> w_folders w)
  ∧ (∀ f, f ∈ w_folders w → f_id f ≠ [])
  ∧ NoDup (a_id <$> w_actors w)
  ∧ ∀ a g, a ∈ w_actors w → a_folder a = Some g → g ∈ w_folders w.

(** A host whose new id is longer than every id in use. *)
Definition longNewId (folders : list Folder) : id :=
  replicate (S (max_list (length ∘ f_id <$> folders))) 120.

(** A world with a folder inside another: one actor in each and one at the
    top level. *)
Definition folderP : Folder :=
  mkFolder (js "idP"%string) (js "Party"%string) Actor_ None.

Definition folderQ : Folder :=
  mkFolder (js "idQ"%string) (js "Heroes"%string) Actor_ (Some folderP).

Definition nestedWorld : World :=
  mkWorld [folderP; folderQ]
    [mkActor (js "a1"%string) (JStr (js "Aang"%string)) (JStr (js "hero"%string))
       (Some folderQ);
     mkActor (js "a2"%string) (JStr (js "bob"%string)) (JStr (js "npc"%string))
       (Some folderP);
     mkActor (js "a3"%string) (JStr (js "42"%string)) (JStr (js "npc"%string)) None].

(** Two folders that name each other as parent. *)
Definition cyclicFolders : list Folder :=
  [mkFolder (js "idA"%string) (js "A"%string) Actor_
     (Some (mkFolder (js "idB"%string) (js "B"%string) Actor_ None));
   mkFolder (js "idB"%string) (js "B"%string) Actor_
     (Some (mkFolder (js "idA"%string) (js "A"%string) Actor_ None))].
(** * Properties *)

(** ** The letter classifier *)

Section LetterClassifier.

Lemma whitespace_not_letter c : isWhiteSpace c = true → isAsciiLetter c = false.
Proof.
  unfold isWhiteSpace, isAsciiLetter. intros H.
  destruct (decide (c < 65)) as [Hlt|Hge].
  - replace (65 <=? c) with false by (symmetry; apply N.leb_gt; lia).
    replace (97 <=? c) with false by (symmetry; apply N.leb_gt; lia). done.
  - destruct (decide (122 < c)) as [Hgt|Hle].
    + replace (c <=? 90) with false by (symmetry; apply N.leb_gt; lia).
      replace (c <=? 122) with false by (symmetry; apply N.leb_gt; lia).
      by rewrite !andb_false_r.
    + exfalso.
      repeat (apply orb_prop in H; destruct H as [H|H]);
        repeat match goal with
               | H : (_ =? _) = true |- _ => apply N.eqb_eq in H
               | H : (_ && _) = true |- _ => apply andb_prop in H; destruct H
               | H : (_ <=? _) = true |- _ => apply N.leb_le in H
               end; lia.
Qed.

Lemma trimStart_split s :
  ∃ ws, s = ws ++ trimStart s ∧ Forall (λ c, isWhiteSpace c = true) ws.
Proof.
  induction s as [|c s [ws [Heq Hws]]]; simpl.
  - by exists [].
  - destruct (isWhiteSpace c) eqn:Hc.
    + exists (c :: ws). split; [by rewrite Heq at 1 | by constructor].
    + by exists [].
Qed.

Lemma trimEnd_split s :
  ∃ ws, s = trimEnd s ++ ws ∧ Forall (λ c, isWhiteSpace c = true) ws.
Proof.
  destruct (trimStart_split (rev s)) as [ws [Heq Hws]].
  exists (rev ws). split.
  - unfold trimEnd. rewrite <- rev_app_distr, <- Heq. by rewrite rev_involutive.
  - by apply Forall_rev.
Qed.

Lemma matchLetter_skip ws s :
  Forall (λ c, isWhiteSpace c = true) ws → matchLetter (ws ++ s) = matchLetter s.
Proof.
  induction 1 as [|c ws Hc _ IH]; simpl; [done|].
  by rewrite (whitespace_not_letter c Hc).
Qed.

Lemma matchLetter_drop_tail s ws :
  Forall (λ c, isWhiteSpace c = true) ws → matchLetter (s ++ ws) = matchLetter s.
Proof.
  intros Hws. induction s as [|c s IH]; simpl.
  - rewrite <- (app_nil_r ws). by rewrite matchLetter_skip.
  - destruct (isAsciiLetter c); [done | apply IH].
Qed.

Lemma matchLetter_trim s : matchLetter (trim s) = matchLetter s.
Proof.
  unfold trim.
  destruct (trimStart_split s) as [ws1 [H1 Hws1]].
  destruct (trimEnd_split (trimStart s)) as [ws2 [H2 Hws2]].
  rewrite H1 at 2. rewrite matchLetter_skip by done.
  rewrite H2 at 2. by rewrite matchLetter_drop_tail.
Qed.

Lemma matchLetter_find s :
  matchLetter s =
  (λ ic : nat * codeunit, [ic.2]) <$> list_find (λ c, isAsciiLetter c = true) s.
Proof.
  induction s as [|c s IH]; [done|].
  cbn [matchLetter list_find]. destruct (isAsciiLetter c) eqn:Hc.
  - by rewrite decide_True.
  - rewrite decide_False by congruence. rewrite IH.
    by destruct (list_find _ s) as [[? ?]|].
Qed.

Lemma upperUnit_letter c :
  isAsciiLetter c = true →
  upperUnit c = (if isUpperAscii c then c else c - 32)
  ∧ isUpperAscii (upperUnit c) = true.
Proof.
  unfold isAsciiLetter, upperUnit, isUpperAscii. intros H.
  destruct (N.leb_spec 97 c), (N.leb_spec c 122), (N.leb_spec 65 c),
    (N.leb_spec c 90); simpl in *; try done; try lia;
    (split; [done|]); apply andb_true_intro; split; apply N.leb_le; lia.
Qed.

Lemma normalizeLetter_find name :
  normalizeLetter name =
  (λ ic : nat * codeunit, [upperUnit ic.2])
    <$> list_find (λ c, isAsciiLetter c = true) (nullish_or name []).
Proof.
  unfold normalizeLetter. rewrite matchLetter_trim, matchLetter_find.
  by destruct (list_find _ _) as [[? ?]|].
Qed.

(** A classified letter is one upper-case ASCII code unit. *)
Lemma normalizeLetter_Some name L :
  normalizeLetter name = Some L → ∃ c, L = [c] ∧ isUpperAscii c = true.
Proof.
  rewrite normalizeLetter_find.
  destruct (list_find _ _) as [[i c]|] eqn:Hf; [|done].
  intros [= <-]. apply list_find_Some in Hf as (_ & Hc & _).
  exists (upperUnit c). split; [done|]. by apply upperUnit_letter.
Qed.

(** C3. For every name (a string, [null] or [undefined]), the letter
    classifier returns the first ASCII letter of the name, scanning the
    whole string left to right, folded to upper case, and no bucket when
    the name holds no ASCII letter; a letter such as É (code unit 201) is
    never matched, alone or in front of an ASCII letter. *)
Theorem normalizeLetter_first_ascii_letter (name : jsval) :
  normalizeLetter name = spec_firstLetter name
  ∧ match normalizeLetter name with
    | Some L =>
        ∃ pre c post,
          nullish_or name [] = pre ++ c :: post
          ∧ Forall (λ x, isAsciiLetter x = false) pre
          ∧ isAsciiLetter c = true
          ∧ L = [upperUnit c] ∧ isUpperAscii (upperUnit c) = true
    | None => Forall (λ x, isAsciiLetter x = false) (nullish_or name [])
    end
  ∧ normalizeLetter (JStr [201]) = None
  ∧ normalizeLetter (JStr [161; 201; 33]) = None
  ∧ normalizeLetter (JStr (201 :: js "lan"%string)) = Some (js "L"%string).
Proof.
  split; [|split; [|by vm_compute]].
  - rewrite normalizeLetter_find. unfold spec_firstLetter.
    destruct (list_find _ _) as [[i c]|] eqn:Hf; [|done]. simpl.
    apply list_find_Some in Hf as (_ & Hc & _).
    by rewrite (proj1 (upperUnit_letter c Hc)).
  - rewrite normalizeLetter_find.
    destruct (list_find _ _) as [[i c]|] eqn:Hf; simpl.
    + apply list_find_Some in Hf as (Hi & Hc & Hpre).
      exists (take i (nullish_or name [])), c, (drop (S i) (nullish_or name [])).
      split; [by rewrite take_drop_middle|].
      split; [|by split; [|split; [|apply upperUnit_letter]]].
      apply Forall_forall. intros x Hx.
      apply list_elem_of_lookup in Hx as [j Hj].
      pose proof (lookup_lt_Some _ _ _ Hj) as Hlt.
      rewrite length_take in Hlt.
      rewrite lookup_take_lt in Hj by lia.
      specialize (Hpre j x Hj). destruct (isAsciiLetter x); [|done].
      exfalso. apply Hpre; [lia | done].
    + apply list_find_None in Hf. eapply Forall_impl; [exact Hf|].
      intros x Hx. simpl in Hx. by destruct (isAsciiLetter x).
Qed.

End LetterClassifier.

(** ** The scope resolver *)

Section ScopeResolver.

(** Walking the parent chain finds [ancestorId] exactly when some strict
    ancestor of the folder bears that id. *)
Lemma isDescendantFolder_iff (folder : Folder) (ancestorId : id) :
  isDescendantFolder folder ancestorId = true
  ↔ strictDescendantOf folder ancestorId.
Proof.
  unfold strictDescendantOf.
  induction folder as [i n t|i n t p IH] using Folder_chain_ind; simpl.
  - split; [done|]. intros (q & Hq & _). inversion Hq; simplify_eq/=.
  - case_bool_decide as Hp.
    + split; [|done]. intros _. exists p. split; [|done].
      by apply ancestor_parent.
    + rewrite IH. split.
      * intros (q & Hq & Hid). exists q. split; [|done].
        by eapply ancestor_up.
      * intros (q & Hq & Hid). inversion Hq as [f Hf|f p' Hf Hq']; simplify_eq/=.
        by exists q.
Qed.

(** C2. The scope resolver is a total boolean function: with no root
    every entity is in scope; an entity without a folder is out of scope
    under any root; an entity whose folder is the root is in scope;
    otherwise it is in scope exactly when subfolders are included and its
    folder is a strict descendant of the root along the parent chain. *)
Theorem actorInScope_cases (e : Actor) (rootId : option id)
    (inclSub : bool) :
  (rootId = None → actorInScope e rootId inclSub = true)
  ∧ (∀ r, rootId = Some r → a_folder e = None →
       actorInScope e rootId inclSub = false)
  ∧ (∀ r f, rootId = Some r → a_folder e = Some f → f_id f = r →
       actorInScope e rootId inclSub = true)
  ∧ (∀ r f, rootId = Some r → a_folder e = Some f → f_id f ≠ r →
       (actorInScope e rootId inclSub = true
        ↔ inclSub = true ∧ strictDescendantOf f r)).
Proof.
  unfold actorInScope. split; [by intros ->|].
  split; [intros r -> ->; simpl; by destruct inclSub|].
  split; [intros r f -> -> <-; simpl; by rewrite bool_decide_eq_true_2|].
  intros r f -> Hf Hne. rewrite Hf. simpl.
  rewrite bool_decide_eq_false_2 by congruence.
  destruct inclSub; simpl.
  - rewrite isDescendantFolder_iff. split; [by intros ? | by intros [_ ?]].
  - split; [done | by intros [? _]].
Qed.

(** An actor in a subfolder of the chosen folder [P] is in scope when
    subfolders are included. *)
Lemma actorInScope_cases_witness :
  let P := mkFolder (js "P"%string) (js "Party"%string) Actor_ None in
  let Q := mkFolder (js "Q"%string) (js "Heroes"%string) Actor_ (Some P) in
  let e := mkActor (js "a"%string) (JStr (js "Aang"%string)) JNull (Some Q) in
  actorInScope e (Some (js "P"%string)) true = true
  ∧ strictDescendantOf Q (js "P"%string).
Proof.
  intros P Q e.
  pose proof (actorInScope_cases e (Some (js "P"%string)) true)
    as (_ & _ & _ & H).
  specialize (H (js "P"%string) Q eq_refl eq_refl ltac:(by vm_compute)).
  split; [by vm_compute|]. by apply H.
Defined.

End ScopeResolver.

(** ** The descendant index *)

Section DescendantIndex.

Implicit Types (fs kids : list Folder) (memo : gmap id (gset id)) (fuel : nat).

Lemma buildFolderChildrenMap_lookup fs pid :
  default [] (buildFolderChildrenMap fs !! pid)
  = filter (λ f, folderIdOf (f_folder f) = pid) fs.
Proof.
  unfold buildFolderChildrenMap.
  induction fs as [|f fs IH] using rev_ind; [done|].
  rewrite foldl_app, filter_app. cbn [foldl].
  set (m := foldl _ ∅ fs) in *.
  destruct (decide (folderIdOf (f_folder f) = pid)) as [Heq|Hne].
  - rewrite filter_cons_True by done. rewrite filter_nil, <- IH, Heq.
    rewrite lookup_insert_eq. simpl.
    destruct (m !! pid) eqn:Hm; simpl; [by rewrite Hm|].
    by rewrite lookup_insert_eq.
  - rewrite lookup_insert_ne by done.
    rewrite filter_cons_False by done. rewrite filter_nil, app_nil_r, <- IH.
    destruct (m !! folderIdOf (f_folder f)) eqn:Hm; [done|].
    by rewrite lookup_insert_ne.
Qed.

Lemma kids_lookup fs x :
  default [] (buildFolderChildrenMap fs !! Some x) = kidsOf fs x.
Proof. apply buildFolderChildrenMap_lookup. Qed.

Lemma kidsOf_childOf fs x k : k ∈ kidsOf fs x → childOf fs (f_id k) x.
Proof.
  unfold kidsOf. rewrite list_elem_of_filter. intros [Hp Hk]. by exists k.
Qed.

(** *** Every set of the index holds its own key *)

Lemma addKids_grows rec kids set memo set' memo' :
  (∀ m y s m', rec m y = Some (s, m') → selfIn m → selfIn m') →
  addKids rec kids set memo = Some (set', memo') →
  selfIn memo → set ⊆ set' ∧ selfIn memo'.
Proof.
  intros Hrec. revert set memo.
  induction kids as [|k kids IH]; intros set memo; simpl.
  - by intros [= <- <-].
  - destruct (rec memo (f_id k)) as [[sk m1]|] eqn:Hk; [|done].
    intros Hadd Hself. apply IH in Hadd as [Hsub Hs']; [|by eapply Hrec].
    split; [|done]. etrans; [|exact Hsub]. apply union_subseteq_l.
Qed.

Lemma dfs_selfIn fuel children memo x s memo' :
  dfs fuel children memo x = Some (s, memo') → selfIn memo → selfIn memo'.
Proof.
  revert memo x s memo'.
  induction fuel as [|fuel IH]; intros memo x s memo'; simpl; [done|].
  destruct (memo !! x) eqn:Hx; [by intros [= <- <-]|].
  destruct (addKids _ _ _ _) as [[set m1]|] eqn:Hadd; [|done].
  intros [= <- <-] Hself.
  apply addKids_grows in Hadd as [Hsub Hm1]; [|exact IH|done].
  intros y sy. rewrite lookup_insert. case_decide as Hy.
  - intros [= <-]. subst y. set_solver.
  - apply Hm1.
Qed.

Lemma buildDescendantsMemo_selfIn fuel fs memo :
  buildDescendantsMemo fuel fs = Some memo → selfIn memo.
Proof.
  unfold buildDescendantsMemo.
  generalize (buildFolderChildrenMap fs) as children. intros children.
  assert (Hgen : ∀ l m, selfIn m → dfsAll fuel children l m = Some memo →
                        selfIn memo).
  { induction l as [|f l IH]; intros m Hm; simpl; [by intros [= <-]|].
    destruct (dfs fuel children m (f_id f)) as [[s m1]|] eqn:Hd; [|done].
    apply IH. by eapply dfs_selfIn. }
  apply Hgen. by intros x s.
Qed.

Lemma length_filter_mono {A} (P Q : A → Prop)
    `{!∀ x, Decision (P x), !∀ x, Decision (Q x)} (l : list A) :
  (∀ x, P x → Q x) → (length (filter P l) ≤ length (filter Q l))%nat.
Proof.
  intros HPQ. induction l as [|x l IH]; [done|].
  rewrite !filter_cons. destruct (decide (P x)) as [HP|HP].
  - rewrite decide_True by auto. simpl. lia.
  - destruct (decide (Q x)); simpl; lia.
Qed.

(** C10. For the index built from any folder list, and for every folder id
    and every list of actors, the direct count of a folder is at most its
    count with subfolders: the set the index gives for a folder (or the
    singleton used when the index has no entry) holds the folder's own
    id. *)
Theorem countActorsForFolder_direct_le (fuel : nat) (fs : list Folder)
    (memo : gmap id (gset id)) (folderId : id) (actors : list Actor) :
  buildDescendantsMemo fuel fs = Some memo →
  folderId ∈ default {[folderId]} (memo !! folderId)
  ∧ ((countActorsForFolder folderId actors memo).1
     ≤ (countActorsForFolder folderId actors memo).2)%nat.
Proof.
  intros Hm. apply buildDescendantsMemo_selfIn in Hm.
  assert (Hin : folderId ∈ default {[folderId]} (memo !! folderId)).
  { destruct (memo !! folderId) as [s|] eqn:Hs; simpl; [by eapply Hm|].
    set_solver. }
  split; [done|]. unfold countActorsForFolder. simpl.
  apply length_filter_mono. intros a Ha.
  destruct (a_folder a) as [f|]; [|done]. simpl in Ha.
  injection Ha as ->. by apply bool_decide_eq_true_2.
Qed.


(** *** The index of an acyclic forest *)

Lemma memoSet_weaken memo memo' k :
  memo ⊆ memo' → is_Some (memo !! k) → memoSet memo' k = memoSet memo k.
Proof.
  intros Hsub [s Hs]. unfold memoSet.
  by rewrite (lookup_weaken _ _ _ _ Hs Hsub), Hs.
Qed.

Lemma addKids_spec fs rec kids set memo set' memo' :
  callSpec fs rec →
  addKids rec kids set memo = Some (set', memo') →
  closedIndex fs memo →
  memo ⊆ memo' ∧ closedIndex fs memo'
  ∧ set' = set ∪ ⋃ (memoSet memo' ∘ f_id <$> kids)
  ∧ (∀ k, k ∈ kids → is_Some (memo' !! f_id k))
  ∧ (∀ z, memo !! z = None → is_Some (memo' !! z) →
       ∃ k, k ∈ kids ∧ rtc (childOf fs) z (f_id k)).
Proof.
  intros Hrec. revert set memo.
  induction kids as [|k kids IH]; intros set memo; simpl.
  - intros [= <- <-] Hcl. split; [done|]. split; [done|].
    split; [simpl; by rewrite (right_id_L ∅ (∪))|].
    split; [by intros k Hk%elem_of_nil|].
    intros z Hz [s Hs]. congruence.
  - destruct (rec memo (f_id k)) as [[sk m1]|] eqn:Hk; [|done].
    intros Hadd Hcl.
    destruct (Hrec _ _ _ _ Hk Hcl) as (Hsub1 & Hk1 & Hcl1 & Hnew1).
    destruct (IH _ _ Hadd Hcl1) as (Hsub2 & Hcl2 & Hset & Hkids & Hnew2).
    assert (Hk2 : memo' !! f_id k = Some sk) by by eapply lookup_weaken.
    split; [by etrans|]. split; [done|]. split; [|split].
    + rewrite Hset.
      replace (memoSet memo' (f_id k)) with sk
        by (unfold memoSet; by rewrite Hk2).
      by rewrite (assoc_L (∪)).
    + intros k' [->|Hk']%elem_of_cons; [by eexists | by apply Hkids].
    + intros z Hz Hz'. destruct (m1 !! z) as [sz|] eqn:Hm1.
      * exists k. split; [by left|]. apply Hnew1; [done | by eexists].
      * destruct (Hnew2 z Hm1 Hz') as (k' & Hk' & Hr).
        exists k'. split; [by right | done].
Qed.

Lemma closedIndex_insert fs memo x set :
  memo !! x = None →
  closedIndex fs memo →
  (∀ k, k ∈ kidsOf fs x → is_Some (memo !! f_id k)) →
  set = {[x]} ∪ ⋃ (memoSet memo ∘ f_id <$> kidsOf fs x) →
  closedIndex fs (<[x := set]> memo).
Proof.
  intros Hx Hcl Hkids Hset.
  assert (Hsame : ∀ y, (∀ k, k ∈ kidsOf fs y → is_Some (memo !! f_id k)) →
            (memoSet (<[x := set]> memo) ∘ f_id <$> kidsOf fs y)
            = (memoSet memo ∘ f_id <$> kidsOf fs y)).
  { intros y Hy. apply Forall_fmap_ext, Forall_forall. intros k Hk.
    cbn [compose]. apply memoSet_weaken; [by apply insert_subseteq | auto]. }
  assert (Hin : ∀ y, (∀ k, k ∈ kidsOf fs y → is_Some (memo !! f_id k)) →
            ∀ k, k ∈ kidsOf fs y → is_Some (<[x := set]> memo !! f_id k)).
  { intros y Hy k Hk. destruct (Hy k Hk) as [s Hs]. exists s.
    eapply lookup_weaken; [exact Hs | by apply insert_subseteq]. }
  intros y s. rewrite lookup_insert. case_decide as Hy.
  - intros [= <-]. subst y. rewrite Hsame by done. split; [done | by apply Hin].
  - intros Hs. destruct (Hcl y s Hs) as [Hs1 Hs2].
    rewrite Hsame by done. split; [done | by apply Hin].
Qed.

Lemma dfs_spec fs fuel :
  acyclic fs → callSpec fs (dfs fuel (buildFolderChildrenMap fs)).
Proof.
  intros Hac. induction fuel as [|fuel IH]; intros memo x s memo'; simpl; [done|].
  destruct (memo !! x) as [sx|] eqn:Hx.
  { intros [= <- <-] Hcl. split; [done|]. split; [done|]. split; [done|].
    intros z Hz [sz Hsz]. congruence. }
  rewrite kids_lookup.
  destruct (addKids _ _ _ _) as [[set m1]|] eqn:Hadd; [|done].
  intros [= <- <-] Hcl.
  destruct (addKids_spec _ _ _ _ _ _ _ IH Hadd Hcl)
    as (Hsub & Hcl1 & Hset & Hkids & Hnew).
  assert (Hx1 : m1 !! x = None).
  { destruct (m1 !! x) as [sx|] eqn:Hm1; [|done]. exfalso.
    destruct (Hnew x Hx) as (k & Hk & Hr); [by eexists|].
    apply (Hac x). eapply tc_rtc_l; [exact Hr|].
    apply tc_once. by apply kidsOf_childOf. }
  split; [|split; [|split]].
  - etrans; [exact Hsub|]. by apply insert_subseteq.
  - by rewrite lookup_insert_eq.
  - by apply closedIndex_insert.
  - intros z Hz. rewrite lookup_insert. case_decide as Hzx; [by subst z|].
    intros Hz'. destruct (Hnew z Hz Hz') as (k & Hk & Hr).
    eapply rtc_r; [exact Hr|]. by apply kidsOf_childOf.
Qed.

(** *** Enough fuel: the depth of the recursion is bounded by the number
    of folders *)

Lemma size_idsOf fs : (size (idsOf fs) ≤ length fs)%nat.
Proof.
  unfold idsOf. induction fs as [|f fs IH].
  - by rewrite fmap_nil, list_to_set_nil, size_empty.
  - rewrite fmap_cons, list_to_set_cons, size_union_alt, size_singleton.
    pose proof (subseteq_size (list_to_set (f_id <$> fs) ∖ {[f_id f]})
                  (list_to_set (f_id <$> fs) : gset id)) as Hle.
    specialize (Hle ltac:(set_solver)). simpl. lia.
Qed.

Lemma addKids_returns rec kids set memo :
  (∀ m k, k ∈ kids → is_Some (rec m (f_id k))) →
  is_Some (addKids rec kids set memo).
Proof.
  revert set memo. induction kids as [|k kids IH]; intros set memo Hrec; simpl.
  - by eexists.
  - destruct (Hrec memo k) as [[sk m1] ->]; [by left|].
    apply IH. intros m k' Hk'. apply Hrec. by right.
Qed.

Lemma dfs_returns fs fuel (path : gset id) memo x :
  acyclic fs →
  x ∈ idsOf fs → path ⊆ idsOf fs →
  (∀ p, p ∈ path → tc (childOf fs) x p) →
  (size (idsOf fs) ≤ size path + fuel)%nat →
  is_Some (dfs fuel (buildFolderChildrenMap fs) memo x).
Proof.
  intros Hac. revert path memo x.
  induction fuel as [|fuel IH]; intros path memo x Hx Hpath Hanc Hsize.
  - exfalso.
    assert (Hnot : x ∉ path) by (intros Hin; by apply (Hac x), Hanc).
    pose proof (subseteq_size ({[x]} ∪ path) (idsOf fs)) as Hle.
    specialize (Hle ltac:(set_solver)).
    rewrite size_union, size_singleton in Hle by set_solver. lia.
  - simpl. destruct (memo !! x); [by eexists|].
    rewrite kids_lookup.
    assert (Hnot : x ∉ path) by (intros Hin; by apply (Hac x), Hanc).
    destruct (addKids_returns (dfs fuel (buildFolderChildrenMap fs))
                (kidsOf fs x) {[x]} memo) as [[set m1] ->]; [|by eexists].
    intros m k Hk. apply (IH ({[x]} ∪ path)).
    + unfold kidsOf in Hk. apply list_elem_of_filter in Hk as [_ Hk].
      unfold idsOf. apply elem_of_list_to_set, list_elem_of_fmap. by exists k.
    + set_solver.
    + intros p [->%elem_of_singleton|Hp]%elem_of_union.
      * apply tc_once. by apply kidsOf_childOf.
      * eapply tc_l; [by apply kidsOf_childOf | by apply Hanc].
    + rewrite size_union, size_singleton by set_solver. lia.
Qed.

Lemma dfsAll_spec fs fuel l memo :
  acyclic fs → (length fs ≤ fuel)%nat → l ⊆ fs → closedIndex fs memo →
  ∃ memo', dfsAll fuel (buildFolderChildrenMap fs) l memo = Some memo'
           ∧ memo ⊆ memo' ∧ closedIndex fs memo'
           ∧ ∀ f, f ∈ l → is_Some (memo' !! f_id f).
Proof.
  intros Hac Hfuel. revert memo.
  induction l as [|f l IH]; intros memo Hl Hcl; simpl.
  - exists memo. split; [done|]. split; [done|]. split; [done|].
    by intros f Hf%elem_of_nil.
  - destruct (dfs_returns fs fuel ∅ memo (f_id f) Hac) as [[s m1] Hd].
    + unfold idsOf. apply elem_of_list_to_set, list_elem_of_fmap.
      exists f. split; [done|]. apply Hl. by left.
    + set_solver.
    + set_solver.
    + rewrite size_empty. pose proof (size_idsOf fs). lia.
    + rewrite Hd.
      destruct (dfs_spec fs fuel Hac _ _ _ _ Hd Hcl) as (Hsub & Hf & Hcl1 & _).
      destruct (IH m1) as (memo' & Hall & Hsub' & Hcl' & Hin); [set_solver | done |].
      exists memo'. split; [done|]. split; [by etrans|]. split; [done|].
      intros f' [->|Hf']%elem_of_cons; [|by apply Hin].
      exists s. by eapply lookup_weaken.
Qed.

(** C5. For an acyclic folder forest the descendant index is built (the
    recursion returns within a depth of the number of folders), it has an
    entry for every folder, the set of a folder is its own id together
    with the sets of its direct children, and the set of a folder without
    children is the singleton of its own id. *)
Theorem buildDescendantsMemo_invariant (fuel : nat) (fs : list Folder) :
  acyclic fs → (length fs ≤ fuel)%nat →
  ∃ memo, buildDescendantsMemo fuel fs = Some memo
    ∧ ∀ f, f ∈ fs →
        memo !! f_id f
        = Some ({[f_id f]} ∪ ⋃ (memoSet memo ∘ f_id <$> kidsOf fs (f_id f)))
        ∧ (∀ k, k ∈ kidsOf fs (f_id f) → is_Some (memo !! f_id k))
        ∧ (kidsOf fs (f_id f) = [] → memo !! f_id f = Some {[f_id f]}).
Proof.
  intros Hac Hfuel. unfold buildDescendantsMemo.
  destruct (dfsAll_spec fs fuel fs ∅ Hac Hfuel) as (memo & Hm & _ & Hcl & Hin);
    [done | by intros x s | ].
  exists memo. split; [done|]. intros f Hf.
  destruct (Hin f Hf) as [s Hs]. destruct (Hcl _ _ Hs) as [Hs1 Hs2].
  split; [by rewrite Hs, Hs1|]. split; [done|].
  intros Hleaf. rewrite Hs, Hs1, Hleaf. simpl. by rewrite (right_id_L ∅ (∪)).
Qed.

End DescendantIndex.

(** ** The folder catalogue *)

Section FolderCatalog.

Implicit Types (raw : list RawEntry) (memo : gmap id (gset id)).

Lemma countsByCrumb_lookup raw c :
  default 0%nat (countsByCrumb raw !! c)
  = length (filter (λ r, r_crumb r = c) raw).
Proof.
  unfold countsByCrumb.
  induction raw as [|r raw IH] using rev_ind; [done|].
  rewrite foldl_app, filter_app, length_app. cbn [foldl].
  set (m := foldl _ ∅ raw) in *.
  destruct (decide (r_crumb r = c)) as [Heq|Hne].
  - rewrite filter_cons_True by done. rewrite filter_nil, <- IH, Heq.
    by rewrite lookup_insert_eq.
  - rewrite filter_cons_False by done. rewrite filter_nil, <- IH.
    rewrite lookup_insert_ne by done. simpl. lia.
Qed.

Lemma two_matches {A} (P : A → Prop) `{!∀ x, Decision (P x)} (l : list A) i j a b :
  l !! i = Some a → l !! j = Some b → i ≠ j → P a → P b →
  (2 ≤ length (filter P l))%nat.
Proof.
  assert (Hone : ∀ (k : list A) n y, k !! n = Some y → P y →
                   (1 ≤ length (filter P k))%nat).
  { intros k n y Hy HP.
    assert (Hin : y ∈ filter P k).
    { apply list_elem_of_filter. split; [done|]. by eapply list_elem_of_lookup_2. }
    destruct (filter P k); [by apply elem_of_nil in Hin | simpl; lia]. }
  revert i j. induction l as [|x l IH]; intros i j Hi Hj Hij Ha Hb; [done|].
  rewrite filter_cons. destruct i as [|i], j as [|j]; simplify_eq/=.
  - rewrite decide_True by done. simpl.
    pose proof (Hone l j b Hj Hb). lia.
  - rewrite decide_True by done. simpl.
    pose proof (Hone l i a Hi Ha). lia.
  - assert (2 ≤ length (filter P l))%nat by (eapply (IH i j); eauto).
    destruct (decide (P x)); simpl; lia.
Qed.

Lemma digits_of_uint d :
  Forall (λ c, 48 ≤ c ≤ 57) (js (NilEmpty.string_of_uint d)).
Proof.
  induction d; simpl; [by constructor|..];
    (constructor; [by vm_compute | done]).
Qed.

Lemma showNat_digits n : Forall (λ c, 48 ≤ c ≤ 57) (showNat n).
Proof.
  unfold showNat, NilZero.string_of_uint.
  destruct (Nat.to_uint n) eqn:Hn; try (rewrite <- Hn; apply digits_of_uint).
  repeat constructor; by vm_compute.
Qed.

(** The part of a label that follows the closing bracket of the suffix. *)
Lemma countLabel_no_bracket d w :
  93 ∉ js " ("%string ++ showNat d ++ js "/"%string ++ showNat w ++ js ")"%string.
Proof.
  pose proof (showNat_digits d) as Hd. pose proof (showNat_digits w) as Hw.
  rewrite Forall_forall in Hd, Hw.
  rewrite !elem_of_app. intros [H|[H|[H|[H|H]]]].
  - vm_compute in H. set_solver.
  - apply Hd in H. lia.
  - vm_compute in H. set_solver.
  - apply Hw in H. lia.
  - vm_compute in H. set_solver.
Qed.

Lemma split_at_first {A} (x : A) (a1 a2 b1 b2 : list A) :
  x ∉ a1 → x ∉ a2 → a1 ++ x :: b1 = a2 ++ x :: b2 → a1 = a2 ∧ b1 = b2.
Proof.
  revert a2. induction a1 as [|y a1 IH]; intros [|z a2] H1 H2 Heq;
    simplify_eq/=; try done.
  - exfalso. apply H2. by left.
  - exfalso. apply H1. by left.
  - destruct (IH a2) as [-> ->]; [set_solver..|done|done].
Qed.

Lemma split_at_last {A} (x : A) (a1 a2 b1 b2 : list A) :
  x ∉ b1 → x ∉ b2 → a1 ++ x :: b1 = a2 ++ x :: b2 → a1 = a2 ∧ b1 = b2.
Proof.
  intros H1 H2 Heq. apply (f_equal reverse) in Heq.
  rewrite !reverse_app, !reverse_cons, <- !(assoc_L (++)) in Heq. simpl in Heq.
  apply split_at_first in Heq as [Hb Ha]; [|by rewrite elem_of_reverse..].
  split; [by apply (inj reverse) | by apply (inj reverse)].
Qed.

Lemma rawEntries_lookup memo fs actors i f :
  fs !! i = Some f →
  rawEntries memo fs actors !! i
  = Some (mkRaw (f_id f) (folderBreadcrumb f)
            (countActorsForFolder (f_id f) actors memo).1
            (countActorsForFolder (f_id f) actors memo).2).
Proof.
  intros Hf. unfold rawEntries. rewrite list_lookup_fmap, Hf. simpl.
  by destruct (countActorsForFolder (f_id f) actors memo).
Qed.

(** The label built for a folder whose breadcrumb is shared. *)
Lemma folderOptions_dup memo fs actors i j f g :
  fs !! i = Some f → fs !! j = Some g → i ≠ j →
  folderBreadcrumb f = folderBreadcrumb g →
  folderOptions memo fs actors !! i
  = Some (mkOption (f_id f)
            (folderBreadcrumb f
             ++ (js " ["%string ++ shortId (JStr (f_id f)) ++ js "]"%string)
             ++ js " ("%string
             ++ (showNat (countActorsForFolder (f_id f) actors memo).1
                 ++ js "/"%string
                 ++ showNat (countActorsForFolder (f_id f) actors memo).2)
             ++ js ")"%string)).
Proof.
  intros Hf Hg Hij Hcrumb. unfold folderOptions.
  rewrite list_lookup_fmap, (rawEntries_lookup _ _ _ _ _ Hf). simpl.
  unfold optionOf. cbn [r_id r_crumb r_direct r_withSubfolders].
  rewrite bool_decide_eq_true_2; [done|].
  rewrite countsByCrumb_lookup.
  eapply (two_matches _ _ i j); [by apply rawEntries_lookup ..|done|done|simpl].
  by rewrite Hcrumb.
Qed.

(** Two labels over the same breadcrumb differ when the id fragments do. *)
Lemma labels_differ (crumb s1 s2 : jsstring) (d1 w1 d2 w2 : nat) :
  s1 ≠ s2 →
  crumb ++ (js " ["%string ++ s1 ++ js "]"%string) ++ js " ("%string
    ++ (showNat d1 ++ js "/"%string ++ showNat w1) ++ js ")"%string
  ≠ crumb ++ (js " ["%string ++ s2 ++ js "]"%string) ++ js " ("%string
    ++ (showNat d2 ++ js "/"%string ++ showNat w2) ++ js ")"%string.
Proof.
  intros Hne Heq. apply app_inv_head in Heq.
  rewrite <- !(assoc_L (++)) in Heq. apply app_inv_head in Heq.
  by destruct (split_at_last 93 s1 s2 _ _ (countLabel_no_bracket d1 w1)
                (countLabel_no_bracket d2 w2) Heq).
Qed.

(** C8 (amended). In the catalogue of the dialog, two distinct folders with
    the same breadcrumb each get the option whose label is the breadcrumb,
    then the suffix made of the last four characters of the folder's own id
    between brackets, then the counts; and the two labels differ whenever
    the two four-character id fragments differ. *)
Theorem catalog_shared_breadcrumb (lc : jsstring → jsstring → bool)
    (fuel : nat) (w : World) (opts : list OptionEntry) (i j : nat)
    (f g : Folder) :
  openAlphabetizerDialog true lc fuel w = Some (Rendered opts) →
  filter (λ f, f_type f = Actor_) (w_folders w) !! i = Some f →
  filter (λ f, f_type f = Actor_) (w_folders w) !! j = Some g →
  i ≠ j →
  folderBreadcrumb f = folderBreadcrumb g →
  ∃ memo,
    buildDescendantsMemo fuel (filter (λ f, f_type f = Actor_) (w_folders w))
    = Some memo
    ∧ let label h :=
        folderBreadcrumb h
        ++ (js " ["%string ++ shortId (JStr (f_id h)) ++ js "]"%string)
        ++ js " ("%string
        ++ (showNat (countActorsForFolder (f_id h) (w_actors w) memo).1
            ++ js "/"%string
            ++ showNat (countActorsForFolder (f_id h) (w_actors w) memo).2)
        ++ js ")"%string in
      mkOption (f_id f) (label f) ∈ opts
      ∧ mkOption (f_id g) (label g) ∈ opts
      ∧ (shortId (JStr (f_id f)) ≠ shortId (JStr (f_id g)) → label f ≠ label g).
Proof.
  unfold openAlphabetizerDialog. cbn [negb]. intros Hopts Hf Hg Hij Hcrumb.
  destruct (buildDescendantsMemo _ _) as [memo|] eqn:Hmemo; [|done].
  injection Hopts as <-. exists memo. split; [done|]. cbn zeta.
  split; [|split].
  - right. rewrite merge_sort_Permutation.
    eapply list_elem_of_lookup_2.
    exact (folderOptions_dup _ _ _ i j f g Hf Hg Hij Hcrumb).
  - right. rewrite merge_sort_Permutation.
    eapply list_elem_of_lookup_2.
    exact (folderOptions_dup _ _ _ j i g f Hg Hf (not_eq_sym Hij) (eq_sym Hcrumb)).
  - intros Hne. rewrite <- Hcrumb. by apply labels_differ.
Qed.

End FolderCatalog.

(** Two folders named Bosses whose ids end in different characters. *)
Lemma catalog_shared_breadcrumb_witness :
  let f := mkFolder (js "xA0001"%string) (js "Bosses"%string) Actor_ None in
  let g := mkFolder (js "xA0002"%string) (js "Bosses"%string) Actor_ None in
  let w := mkWorld [f; g] [] in
  let opts := shownOptions (openAlphabetizerDialog true jsstr_le 2 w) in
  ∃ lf lg, mkOption (f_id f) lf ∈ opts ∧ mkOption (f_id g) lg ∈ opts ∧ lf ≠ lg.
Proof.
  intros f g w opts.
  assert (Hopts : openAlphabetizerDialog true jsstr_le 2 w = Some (Rendered opts))
    by by vm_compute.
  destruct (catalog_shared_breadcrumb jsstr_le 2 w _ 0 1 f g Hopts)
    as (memo & _ & Hf & Hg & Hne); [done | done | lia | done |].
  eexists _, _. split; [exact Hf|]. split; [exact Hg|].
  apply Hne. by vm_compute.
Defined.

(** C8 as stated fails: two distinct folders with the same breadcrumb whose
    ids end in the same four characters get the same label. *)
Lemma catalog_labels_collide :
  let f := mkFolder (js "xA0001"%string) (js "Bosses"%string) Actor_ None in
  let g := mkFolder (js "xB0001"%string) (js "Bosses"%string) Actor_ None in
  let w := mkWorld [f; g] [] in
  f_id f ≠ f_id g
  ∧ folderBreadcrumb f = folderBreadcrumb g
  ∧ ∃ label,
      openAlphabetizerDialog true jsstr_le 2 w
      = Some (Rendered
                [mkOption (js "root"%string) (js "Root (all Actors) (0)"%string);
                 mkOption (f_id f) label;
                 mkOption (f_id g) label])
      ∧ label = js "Bosses [0001] (0/0)"%string.
Proof.
  intros f g w. split; [by vm_compute|]. split; [done|].
  eexists. split; by vm_compute.
Qed.

(** ** A small forest used to exercise the index lemmas *)

Lemma acyclic_of_rank (fs : list Folder) (rank : id → nat) :
  Forall (λ f, match folderIdOf (f_folder f) with
               | Some p => (rank p < rank (f_id f))%nat
               | None => True
               end) fs →
  acyclic fs.
Proof.
  intros Hrank x Hx.
  assert (Hlt : ∀ a b, tc (childOf fs) a b → (rank b < rank a)%nat).
  { assert (Hstep : ∀ a b, childOf fs a b → (rank b < rank a)%nat).
    { intros a b (f & Hf & <- & Hp). rewrite Forall_forall in Hrank.
      specialize (Hrank f Hf). by rewrite Hp in Hrank. }
    induction 1 as [a b Hab|a b c Hab _ IH]; [by apply Hstep|].
    apply Hstep in Hab. lia. }
  apply Hlt in Hx. lia.
Qed.

Lemma buildDescendantsMemo_invariant_witness :
  let P := mkFolder (js "P"%string) (js "Party"%string) Actor_ None in
  let Q := mkFolder (js "Q"%string) (js "Heroes"%string) Actor_ (Some P) in
  ∃ memo, buildDescendantsMemo 2 [Q; P] = Some memo
          ∧ memo !! f_id Q = Some {[f_id Q]}
          ∧ memo !! f_id P = Some ({[f_id P]} ∪ (memoSet memo (f_id Q) ∪ ∅)).
Proof.
  intros P Q.
  assert (Hac : acyclic [Q; P]).
  { apply (acyclic_of_rank _ (λ i, if bool_decide (i = js "Q"%string) then 1 else 0)%nat).
    repeat constructor. }
  destruct (buildDescendantsMemo_invariant 2 [Q; P] Hac) as (memo & Hm & Hall);
    [simpl; lia|].
  exists memo. split; [done|]. split.
  - destruct (Hall Q) as (_ & _ & Hleaf); [by left|]. by apply Hleaf.
  - destruct (Hall P) as (HP & _ & _); [by right; left|]. exact HP.
Defined.

Lemma countActorsForFolder_direct_le_witness :
  let P := mkFolder (js "P"%string) (js "Party"%string) Actor_ None in
  let Q := mkFolder (js "Q"%string) (js "Heroes"%string) Actor_ (Some P) in
  let actors := [mkActor (js "a"%string) (JStr (js "Aang"%string)) JNull (Some Q);
                 mkActor (js "b"%string) (JStr (js "Bob"%string)) JNull (Some P)] in
  let memo := default ∅ (buildDescendantsMemo 2 [Q; P]) in
  countActorsForFolder (f_id P) actors memo = (1, 2)%nat
  ∧ ((countActorsForFolder (f_id P) actors memo).1
     ≤ (countActorsForFolder (f_id P) actors memo).2)%nat.
Proof.
  intros P Q actors memo.
  assert (Hm : buildDescendantsMemo 2 [Q; P] = Some memo) by by vm_compute.
  split; [by vm_compute|].
  exact (proj2 (countActorsForFolder_direct_le 2 [Q; P] memo (f_id P) actors Hm)).
Defined.

(** ** The folder-ensure operation *)

Section EnsureFolder.

Variable newId : list Folder → id.

Implicit Types (F G : list Folder) (p : option id) (n : jsstring).

Lemma childFolderTest_iff n p f :
  childFolderTest n p f = true ↔ isChild n p f.
Proof.
  unfold childFolderTest, isChild.
  rewrite !andb_true_iff, !bool_decide_eq_true.
  destruct p as [q|]; [rewrite bool_decide_eq_true; naive_solver|].
  destruct (f_folder f); simpl; naive_solver.
Qed.

Lemma findChildFolder_Some F n p f :
  findChildFolder F n p = Some f → f ∈ F ∧ isChild n p f.
Proof.
  unfold findChildFolder. destruct (list_find _ F) as [[i g]|] eqn:Hf; [|done].
  intros [= <-]. apply list_find_Some in Hf as (Hi & Ht & _).
  split; [by eapply list_elem_of_lookup_2 | by apply childFolderTest_iff].
Qed.

Lemma findChildFolder_None F n p :
  findChildFolder F n p = None ↔ ∀ f, f ∈ F → ¬ isChild n p f.
Proof.
  unfold findChildFolder. rewrite fmap_None, list_find_None, Forall_forall.
  by setoid_rewrite childFolderTest_iff.
Qed.

Lemma findChildFolder_app_l F G n p f :
  findChildFolder F n p = Some f → findChildFolder (F ++ G) n p = Some f.
Proof.
  unfold findChildFolder. destruct (list_find _ F) as [[i g]|] eqn:Hf; [|done].
  intros [= <-]. by rewrite (list_find_app_l _ _ _ _ _ Hf).
Qed.

Lemma findChildFolder_app_None F G n p :
  findChildFolder F n p = None →
  findChildFolder (F ++ G) n p = findChildFolder G n p.
Proof.
  unfold findChildFolder. intros Hf%fmap_None.
  rewrite (list_find_app_r _ _ _ Hf).
  by destruct (list_find _ G) as [[i g]|].
Qed.

Lemma findChildFolder_prefix F F' n p f :
  F `prefix_of` F' → findChildFolder F n p = Some f →
  findChildFolder F' n p = Some f.
Proof. intros [G ->]. apply findChildFolder_app_l. Qed.

Lemma resolvable_prefix F F' p :
  F `prefix_of` F' → resolvable F p → resolvable F' p.
Proof.
  intros [G ->]. destruct p as [q|]; [|done].
  intros (f & Hf & Hid). exists f. split; [|done]. apply elem_of_app. by left.
Qed.

Lemma resolveFolder_id F q :
  resolvable F (Some q) → folderIdOf (resolveFolder F q) = Some q.
Proof.
  intros (f & Hf & Hid). unfold resolveFolder.
  destruct (list_find (λ g, f_id g = q) F) as [[i g]|] eqn:Hfind.
  - apply list_find_Some in Hfind as (_ & Hg & _). simpl. by rewrite Hg.
  - apply list_find_None in Hfind. rewrite Forall_forall in Hfind.
    by destruct (Hfind f Hf).
Qed.

Lemma createFolder_isChild F n p :
  resolvable F p → isChild n p (createFolder newId F n p).
Proof.
  intros Hp. unfold isChild, createFolder. simpl.
  split; [done|]. split; [done|].
  destruct p as [q|]; [|done]. simpl. by apply resolveFolder_id.
Qed.

(** What [ensureFolder] returns: the id of a folder that [findChildFolder]
    finds from then on, either the one it found or the one it created. *)
Lemma ensureFolder_spec n p F i F' :
  ensureFolder newId n p F = (i, F') → resolvable F p →
  ∃ f, findChildFolder F' n p = Some f ∧ f_id f = i
       ∧ ((findChildFolder F n p = Some f ∧ F' = F)
          ∨ (findChildFolder F n p = None ∧ F' = F ++ [f]
             ∧ f = createFolder newId F n p)).
Proof.
  unfold ensureFolder. intros He Hp.
  destruct (findChildFolder F n p) as [f|] eqn:Hf; simplify_eq/=.
  - exists f. split; [done|]. split; [done|]. by left.
  - exists (createFolder newId F n p). split; [|split; [done|by right]].
    rewrite findChildFolder_app_None by done.
    unfold findChildFolder. simpl.
    rewrite decide_True; [done|].
    apply childFolderTest_iff. by apply createFolder_isChild.
Qed.

(** Without any assumption on the parent: the store grows by at most the
    created folder, and the id returned is the id of a folder of the store. *)
Lemma ensureFolder_grows n p F i F' :
  ensureFolder newId n p F = (i, F') →
  (F' = F ∨ F' = F ++ [createFolder newId F n p])
  ∧ ∃ f, f ∈ F' ∧ f_id f = i.
Proof.
  unfold ensureFolder. intros He.
  destruct (findChildFolder F n p) as [f|] eqn:Hf; simplify_eq/=.
  - split; [by left|]. exists f. split; [|done].
    by apply findChildFolder_Some in Hf as [? _].
  - split; [by right|]. exists (createFolder newId F n p). split; [|done].
    apply elem_of_app. right. by left.
Qed.

Lemma createdDistinct_refl F : createdDistinct F F.
Proof.
  intros i c Hc Hi. apply lookup_lt_Some in Hc. lia.
Qed.

Lemma createdDistinct_step B F n p i F' :
  B `prefix_of` F → createdDistinct B F → resolvable F p →
  ensureFolder newId n p F = (i, F') →
  createdDistinct B F'.
Proof.
  intros HB Hcd Hp He.
  destruct (ensureFolder_spec _ _ _ _ _ He Hp) as (f & _ & _ & [[_ ->]|(Hnone & -> & Hf)]);
    [done|].
  assert (Hch : isChild n p f) by (subst f; by apply createFolder_isChild).
  destruct Hch as (Hty & Hname & Hpar).
  assert (Hfresh : ∀ g, g ∈ F → f_type g = Actor_ → ¬ twins g f).
  { intros g Hg Hgt [Hn Hq]. rewrite findChildFolder_None in Hnone.
    apply (Hnone g Hg). split; [done|]. split; congruence. }
  intros k c Hc Hk.
  destruct (decide (k < length F)%nat) as [Hlt|Hge].
  - rewrite lookup_app_l in Hc by done.
    destruct (Hcd k c Hc Hk) as [Hct Hcu]. split; [done|].
    intros j g Hg Hkj Hgt.
    destruct (decide (j < length F)%nat) as [Hjlt|Hjge].
    + rewrite lookup_app_l in Hg by done. by eapply Hcu.
    + rewrite lookup_app_r in Hg by lia.
      destruct (j - length F)%nat; simplify_eq/=.
      intros [Hn Hq]. eapply (Hfresh c); [by eapply list_elem_of_lookup_2|done|].
      split; congruence.
  - rewrite lookup_app_r in Hc by lia.
    destruct (k - length F)%nat eqn:Hkk; simplify_eq/=.
    split; [done|]. intros j g Hg Hkj Hgt.
    assert (Hjlt : (j < length F)%nat).
    { apply lookup_lt_Some in Hg. rewrite length_app in Hg. simpl in Hg. lia. }
    rewrite lookup_app_l in Hg by done.
    apply Hfresh; [by eapply list_elem_of_lookup_2 | done].
Qed.

End EnsureFolder.

(** ** The ensure loops *)

Section EnsureLoops.

Variable newId : list Folder → id.

Implicit Types (F G B : list Folder) (p : option id) (m : gmap jsstring id).
Implicit Types (g : bool) (t : jsval) (L : jsstring) (tids : gmap jsstring id).

Lemma ensureEach_cons {X} (key name : X → jsstring) p x xs m F :
  ensureEach newId key name p (x :: xs) (m, F)
  = ensureEach newId key name p xs
      (<[key x := (ensureFolder newId (name x) p F).1]> m,
       (ensureFolder newId (name x) p F).2).
Proof.
  unfold ensureEach. cbn [foldl].
  by destruct (ensureFolder newId (name x) p F).
Qed.

(** The loop under a resolvable parent: every element ends up recorded
    with the id of the folder that [findChildFolder] finds for it in the
    final store. *)
Lemma ensureEach_spec {X} (key name : X → jsstring) p xs m0 F0 m F :
  ensureEach newId key name p xs (m0, F0) = (m, F) →
  resolvable F0 p →
  (∀ x y, x ∈ xs → y ∈ xs → key x = key y → name x = name y) →
  F0 `prefix_of` F
  ∧ (∀ x, x ∈ xs →
       ∃ f, findChildFolder F (name x) p = Some f ∧ m !! key x = Some (f_id f))
  ∧ (∀ k, k ∉ key <$> xs → m !! k = m0 !! k)
  ∧ ((∀ x, x ∈ xs → is_Some (findChildFolder F0 (name x) p)) → F = F0)
  ∧ (∀ B, B `prefix_of` F0 → createdDistinct B F0 → createdDistinct B F).
Proof.
  revert m0 F0. induction xs as [|x xs IH]; intros m0 F0 He Hp Hkey.
  - injection He as <- <-. split; [done|]. split; [by intros x Hx%elem_of_nil|].
    split; [done|]. split; [done|]. by intros B _ HB.
  - rewrite ensureEach_cons in He.
    destruct (ensureFolder newId (name x) p F0) as [i F1] eqn:Hens.
    cbn [fst snd] in He.
    destruct (ensureFolder_spec _ _ _ _ _ _ Hens Hp) as (f & Hf & Hi & Hcase).
    assert (Hpre1 : F0 `prefix_of` F1).
    { destruct Hcase as [[_ ->]|(_ & -> & _)]; [done | by eexists]. }
    destruct (IH _ _ He) as (Hpre & Hall & Hother & Hsame & Hcd).
    { by eapply resolvable_prefix. }
    { intros y z Hy Hz. apply Hkey; by right. }
    split; [by etrans|]. split; [|split; [|split]].
    + intros y [->|Hy]%elem_of_cons; [|by apply Hall].
      destruct (decide (key x ∈ key <$> xs)) as [Hin|Hout].
      * apply list_elem_of_fmap in Hin as (z & Hkz & Hz).
        destruct (Hall z Hz) as (g & Hg & Hmg).
        exists g. rewrite Hkz. split; [|done].
        rewrite (Hkey x z); [done | by left | by right | done].
      * exists f. split; [by eapply findChildFolder_prefix|].
        rewrite (Hother _ Hout), lookup_insert_eq. by rewrite Hi.
    + intros k Hk. rewrite fmap_cons, not_elem_of_cons in Hk.
      destruct Hk as [Hkx Hk]. rewrite (Hother k Hk).
      by rewrite lookup_insert_ne.
    + intros Hfound.
      assert (F1 = F0) as ->.
      { destruct Hcase as [[_ ->]|(Hnone & _)]; [done|].
        destruct (Hfound x) as [g Hg]; [by left | congruence]. }
      apply Hsame. intros y Hy. apply Hfound. by right.
    + intros B HB HBcd. apply Hcd; [by etrans|].
      by eapply createdDistinct_step.
Qed.

(** The loop under any parent: the keys are recorded with ids of folders
    of the final store, and every folder of the final store was there
    before or was created by the host. *)
Lemma ensureEach_keys {X} (key name : X → jsstring) p xs m0 F0 m F :
  ensureEach newId key name p xs (m0, F0) = (m, F) →
  F0 `prefix_of` F
  ∧ (∀ f, f ∈ F → f ∈ F0 ∨ ∃ F' n' p', f = createFolder newId F' n' p')
  ∧ (∀ k, (k ∈ key <$> xs ∨ ∃ f, f ∈ F0 ∧ m0 !! k = Some (f_id f)) →
       ∃ f, f ∈ F ∧ m !! k = Some (f_id f)).
Proof.
  revert m0 F0. induction xs as [|x xs IH]; intros m0 F0 He.
  - injection He as <- <-. split; [done|]. split; [by left|].
    intros k [Hk%elem_of_nil|Hk]; done.
  - rewrite ensureEach_cons in He.
    destruct (ensureFolder newId (name x) p F0) as [i F1] eqn:Hens.
    cbn [fst snd] in He.
    destruct (ensureFolder_grows _ _ _ _ _ _ Hens) as (Hcase & fi & Hfi & Hi).
    assert (Hpre1 : F0 `prefix_of` F1).
    { destruct Hcase as [->| ->]; [done | by eexists]. }
    destruct (IH _ _ He) as (Hpre & Horigin & Hkeys).
    split; [by etrans|]. split.
    + intros f Hf. destruct (Horigin f Hf) as [Hf1|?]; [|by right].
      destruct Hcase as [->| ->]; [by left|].
      apply elem_of_app in Hf1 as [?|Hf1%list_elem_of_singleton]; [by left|].
      right. by eexists _, _, _.
    + intros k Hk. apply Hkeys.
      destruct (decide (k = key x)) as [->|Hne].
      * right. exists fi. split; [done|]. by rewrite lookup_insert_eq, Hi.
      * destruct Hk as [Hk|(f & Hf & Hm)].
        -- left. rewrite fmap_cons in Hk.
           by apply elem_of_cons in Hk as [?|?].
        -- right. exists f. rewrite lookup_insert_ne by done.
           split; [|done]. destruct Hpre1 as [G ->]. apply elem_of_app. by left.
Qed.

Lemma ensureTypeFolders_each p types st :
  ensureTypeFolders newId p types st = ensureEach newId String_ String_ p types st.
Proof. done. Qed.

Lemma ensureLettersOf_each g base t letters st :
  ensureLettersOf newId g base t letters st
  = ensureEach newId (bucketKey g t) (λ L, L) base letters st.
Proof. done. Qed.

(** Bucket keys determine the letter and, when grouping, the type name. *)
Lemma bucketKey_inj g t t' L L' :
  length L = length L' →
  bucketKey g t L = bucketKey g t' L' →
  L = L' ∧ (g = true → String_ t = String_ t').
Proof.
  unfold bucketKey. intros Hlen. destruct g.
  - intros Heq. apply app_inj_2 in Heq as [Ht HL].
    + apply app_inv_head in HL. by split.
    + by rewrite !length_app, Hlen.
  - intros HL%app_inv_head. by split.
Qed.


(** The base folder of a partition in the letter loop. *)
Lemma baseOf_key g p tids t t' L L' :
  length L = length L' →
  bucketKey g t L = bucketKey g t' L' →
  L = L'
  ∧ baseParentOf g p tids t = baseParentOf g p tids t'.
Proof.
  intros Hlen Hkey. destruct (bucketKey_inj _ _ _ _ _ Hlen Hkey) as [HL Ht].
  split; [done|]. unfold baseParentOf. destruct g; [|done]. by rewrite Ht.
Qed.

Lemma ensureLetterFolders_cons g p tids t ts letters st :
  ensureLetterFolders newId g p tids (t :: ts) letters st
  = ensureLetterFolders newId g p tids ts letters
      (ensureLettersOf newId g (baseParentOf g p tids t) t letters st).
Proof. done. Qed.

Lemma ensureLetterFolders_spec g p tids types letters m0 F0 m F :
  ensureLetterFolders newId g p tids types letters (m0, F0) = (m, F) →
  (∀ t, t ∈ types → resolvable F0 (baseParentOf g p tids t)) →
  Forall (λ L, length L = 1%nat) letters →
  F0 `prefix_of` F
  ∧ (∀ t L, t ∈ types → L ∈ letters →
       ∃ f, findChildFolder F L (baseParentOf g p tids t) = Some f
            ∧ m !! bucketKey g t L = Some (f_id f))
  ∧ (∀ k, Forall (λ t, Forall (λ L, k ≠ bucketKey g t L) letters) types →
       m !! k = m0 !! k)
  ∧ ((∀ t L, t ∈ types → L ∈ letters →
        is_Some (findChildFolder F0 L (baseParentOf g p tids t))) → F = F0)
  ∧ (∀ B, B `prefix_of` F0 → createdDistinct B F0 → createdDistinct B F).
Proof.
  intros He Hres Hlen. rewrite Forall_forall in Hlen.
  revert m0 F0 He Hres.
  induction types as [|t ts IH]; intros m0 F0 He Hres.
  - injection He as <- <-. split; [done|].
    split; [by intros t L Ht%elem_of_nil|].
    split; [done|]. split; [done|]. by intros B _ HB.
  - rewrite ensureLetterFolders_cons, ensureLettersOf_each in He.
    destruct (ensureEach newId (bucketKey g t) (λ L, L)
                (baseParentOf g p tids t) letters (m0, F0)) as [m1 F1] eqn:Hhead.
    apply ensureEach_spec in Hhead
      as (Hpre1 & Hall1 & Hother1 & Hsame1 & Hcd1);
      [|apply Hres; by left
       |intros L L' HL HL' Hk;
        by apply (bucketKey_inj g t t L L') in Hk as [? _];
          [|rewrite (Hlen L), (Hlen L')]].
    destruct (IH _ _ He) as (Hpre & Hall & Hother & Hsame & Hcd).
    { intros t' Ht'. eapply resolvable_prefix; [done|]. apply Hres. by right. }
    split; [by etrans|]. split; [|split; [|split]].
    + intros t0 L [->|Ht0]%elem_of_cons HL; [|by apply Hall].
      destruct (decide (Forall (λ t', Forall (λ L', bucketKey g t L ≠ bucketKey g t' L')
                                        letters) ts)) as [Hout|Hin].
      * destruct (Hall1 L HL) as (f & Hf & Hm1). exists f.
        split; [by eapply findChildFolder_prefix|]. by rewrite (Hother _ Hout).
      * apply not_Forall_Exists in Hin; [|apply _].
        apply Exists_exists in Hin as (t' & Ht' & Hin).
        apply not_Forall_Exists in Hin; [|apply _].
        apply Exists_exists in Hin as (L' & HL' & Hk).
        apply dec_stable in Hk.
        pose proof Hk as Hk'.
        apply baseOf_key with (p := p) (tids := tids) in Hk' as [HLL Hbase];
          [|by rewrite (Hlen L), (Hlen L')].
        rewrite Hk, Hbase, HLL. by apply Hall.
    + intros k Hk. apply Forall_cons in Hk as [Hkt Hk].
      rewrite (Hother k Hk). apply Hother1.
      intros (L & -> & HL)%list_elem_of_fmap.
      rewrite Forall_forall in Hkt. by apply (Hkt L HL).
    + intros Hfound.
      assert (F1 = F0) as ->.
      { apply Hsame1. intros L HL. apply Hfound; [by left | done]. }
      apply Hsame. intros t' L Ht' HL. apply Hfound; [by right | done].
    + intros B HB HBcd. apply Hcd; [by etrans|]. by apply Hcd1.
Qed.

End EnsureLoops.

(** ** The folder-ensure pass *)

Section EnsurePass.

Variable newId : list Folder → id.

Implicit Types (F G B : list Folder) (p : option id) (m : gmap jsstring id).
Implicit Types (g : bool) (t : jsval) (L : jsstring) (tids : gmap jsstring id).

Lemma ensureLetterFolders_keys g p tids types letters m0 F0 m F :
  ensureLetterFolders newId g p tids types letters (m0, F0) = (m, F) →
  F0 `prefix_of` F
  ∧ (∀ f, f ∈ F → f ∈ F0 ∨ ∃ F' n' p', f = createFolder newId F' n' p')
  ∧ (∀ k, ((∃ t L, t ∈ types ∧ L ∈ letters ∧ k = bucketKey g t L)
           ∨ ∃ f, f ∈ F0 ∧ m0 !! k = Some (f_id f)) →
       ∃ f, f ∈ F ∧ m !! k = Some (f_id f)).
Proof.
  revert m0 F0. induction types as [|t ts IH]; intros m0 F0 He.
  - injection He as <- <-. split; [done|]. split; [by left|].
    intros k [(t & L & Ht%elem_of_nil & _)|Hk]; done.
  - rewrite ensureLetterFolders_cons, ensureLettersOf_each in He.
    destruct (ensureEach newId (bucketKey g t) (λ L, L)
                (baseParentOf g p tids t) letters (m0, F0)) as [m1 F1] eqn:Hhead.
    apply ensureEach_keys in Hhead as (Hpre1 & Horigin1 & Hkeys1).
    destruct (IH _ _ He) as (Hpre & Horigin & Hkeys).
    split; [by etrans|]. split.
    + intros f Hf. destruct (Horigin f Hf) as [Hf1|?]; [|by right].
      by apply Horigin1.
    + intros k Hk. apply Hkeys.
      destruct Hk as [(t0 & L & [->|Ht0]%elem_of_cons & HL & ->)|Hk].
      * right. apply Hkeys1. left. apply list_elem_of_fmap. by exists L.
      * left. by exists t0, L.
      * right. apply Hkeys1. by right.
Qed.

Lemma ensurePass_keys cfg types letters F0 tids plan F :
  ensurePass newId cfg types letters F0 = (tids, plan, F) →
  F0 `prefix_of` F
  ∧ (∀ f, f ∈ F → f ∈ F0 ∨ ∃ F' n' p', f = createFolder newId F' n' p')
  ∧ (∀ t L, t ∈ types → L ∈ letters →
       ∃ f, f ∈ F ∧ plan !! bucketKey (groupByType cfg) t L = Some (f_id f)).
Proof.
  unfold ensurePass. intros He.
  destruct (if groupByType cfg
            then ensureTypeFolders newId (parentFolderId cfg) types (∅, F0)
            else (∅, F0)) as [tids1 F1] eqn:Htypes.
  destruct (ensureLetterFolders newId (groupByType cfg) (parentFolderId cfg)
              tids1 types letters (∅, F1)) as [plan1 F2] eqn:Hletters.
  injection He as <- <- <-.
  assert (H1 : F0 `prefix_of` F1
               ∧ ∀ f, f ∈ F1 → f ∈ F0 ∨ ∃ F' n' p', f = createFolder newId F' n' p').
  { destruct (groupByType cfg).
    - rewrite ensureTypeFolders_each in Htypes.
      by apply ensureEach_keys in Htypes as (? & ? & _).
    - injection Htypes as <- <-. split; [done | by left]. }
  destruct H1 as [Hpre1 Horigin1].
  apply ensureLetterFolders_keys in Hletters as (Hpre & Horigin & Hkeys).
  split; [by etrans|]. split.
  - intros f Hf. destruct (Horigin f Hf) as [Hf1|?]; [by apply Horigin1 | by right].
  - intros t L Ht HL. apply Hkeys. left. by exists t, L.
Qed.

Lemma ensurePass_spec cfg types letters F0 tids plan F :
  ensurePass newId cfg types letters F0 = (tids, plan, F) →
  resolvable F0 (parentFolderId cfg) →
  Forall (λ L, length L = 1%nat) letters →
  F0 `prefix_of` F
  ∧ (groupByType cfg = true → ∀ t, t ∈ types →
       ∃ ft, findChildFolder F (String_ t) (parentFolderId cfg) = Some ft
             ∧ tids !! String_ t = Some (f_id ft))
  ∧ (∀ t L, t ∈ types → L ∈ letters →
       ∃ f, findChildFolder F L
              (baseParentOf (groupByType cfg) (parentFolderId cfg) tids t) = Some f
            ∧ plan !! bucketKey (groupByType cfg) t L = Some (f_id f)
            ∧ planOf (groupByType cfg) (parentFolderId cfg) F t L = Some (f_id f))
  ∧ (allEnsured (groupByType cfg) (parentFolderId cfg) F0 types letters → F = F0)
  ∧ (∀ B, B `prefix_of` F0 → createdDistinct B F0 → createdDistinct B F).
Proof.
  unfold ensurePass, allEnsured, planOf. intros He Hp Hlen.
  destruct (groupByType cfg) eqn:Hg.
  - destruct (ensureTypeFolders newId (parentFolderId cfg) types (∅, F0))
      as [tids1 F1] eqn:Htypes.
    destruct (ensureLetterFolders newId true (parentFolderId cfg)
                tids1 types letters (∅, F1)) as [plan1 F2] eqn:Hletters.
    injection He as <- <- <-.
    rewrite ensureTypeFolders_each in Htypes.
    apply ensureEach_spec in Htypes as (Hpre1 & Hall1 & _ & Hsame1 & Hcd1);
      [|done|done].
    apply ensureLetterFolders_spec in Hletters
      as (Hpre & Hall & _ & Hsame & Hcd); [|..|done].
    2:{ intros t Ht. destruct (Hall1 t Ht) as (ft & Hft & Htid).
        unfold baseParentOf. rewrite Htid.
        exists ft. split; [|done]. by apply findChildFolder_Some in Hft as [? _]. }
    assert (Htype : ∀ t, t ∈ types →
              ∃ ft, findChildFolder F2 (String_ t) (parentFolderId cfg) = Some ft
                    ∧ tids1 !! String_ t = Some (f_id ft)).
    { intros t Ht. destruct (Hall1 t Ht) as (ft & Hft & Htid).
      exists ft. split; [by eapply findChildFolder_prefix | done]. }
    split; [by etrans|]. split; [by intros _|]. split; [|split].
    + intros t L Ht HL. destruct (Hall t L Ht HL) as (f & Hf & Hm).
      exists f. split; [done|]. split; [done|].
      destruct (Htype t Ht) as (ft & Hft & Htid).
      rewrite Hft. simpl. unfold baseParentOf in Hf. rewrite Htid in Hf.
      by rewrite Hf.
    + intros [Htf Hlf].
      assert (F1 = F0) as -> by (apply Hsame1; by apply Htf).
      apply Hsame. intros t L Ht HL.
      destruct (Hall1 t Ht) as (ft & Hft & Htid).
      unfold baseParentOf. rewrite Htid.
      specialize (Hlf t L Ht HL). rewrite Hft in Hlf. simpl in Hlf.
      by apply fmap_is_Some in Hlf.
    + intros B HB HBcd. apply Hcd; [by etrans|]. by apply Hcd1.
  - destruct (ensureLetterFolders newId false (parentFolderId cfg)
                ∅ types letters (∅, F0)) as [plan1 F2] eqn:Hletters.
    injection He as <- <- <-.
    apply ensureLetterFolders_spec in Hletters
      as (Hpre & Hall & _ & Hsame & Hcd); [|by intros t Ht|done].
    split; [done|]. split; [done|]. split; [|split; [|done]].
    + intros t L Ht HL. destruct (Hall t L Ht HL) as (f & Hf & Hm).
      exists f. split; [done|]. split; [done|].
      unfold baseParentOf in Hf. by rewrite Hf.
    + intros [_ Hlf]. apply Hsame. intros t L Ht HL.
      specialize (Hlf t L Ht HL). by apply fmap_is_Some in Hlf.
Qed.

End EnsurePass.

(** ** The steps of a run *)

Section RunSteps.

Variable newId : list Folder → id.

Implicit Types (cfg : Config) (w : World) (a : Actor) (L : jsstring).

Lemma elem_of_setFrom (xs : list jsstring) x : x ∈ setFrom xs ↔ x ∈ xs.
Proof.
  unfold setFrom.
  assert (Hgen : ∀ acc,
            x ∈ foldl (λ acc x, if bool_decide (x ∈ acc) then acc else acc ++ [x])
                  acc xs ↔ x ∈ acc ∨ x ∈ xs).
  { induction xs as [|y xs IH]; intros acc; simpl.
    - rewrite elem_of_nil. naive_solver.
    - rewrite IH, elem_of_cons. case_bool_decide as Hy.
      + split; [naive_solver|]. intros [?|[->|?]]; auto.
      + rewrite elem_of_app, list_elem_of_singleton. naive_solver. }
  rewrite Hgen, elem_of_nil. naive_solver.
Qed.

Lemma elem_of_sortStrings (xs : list jsstring) x : x ∈ sortStrings xs ↔ x ∈ xs.
Proof. unfold sortStrings. by rewrite merge_sort_Permutation. Qed.

Lemma elem_of_filterBoolean (xs : list (option jsstring)) x :
  x ∈ filterBoolean xs ↔ Some x ∈ xs ∧ x ≠ [].
Proof.
  unfold filterBoolean. rewrite list_elem_of_omap. split.
  - intros ([[|c s]|] & Ho & Hx); simplify_eq/=. by split.
  - intros [Hx Hne]. exists (Some x). split; [done|]. by destruct x.
Qed.

Lemma elem_of_alphabet L :
  L ∈ alphabet ↔ ∃ c, L = [c] ∧ isUpperAscii c = true.
Proof.
  split.
  - intros HL. unfold alphabet in HL.
    repeat (apply elem_of_cons in HL as [->|HL]; [by eexists|]).
    by apply elem_of_nil in HL.
  - intros (c & -> & Hc). unfold isUpperAscii in Hc.
    apply andb_prop in Hc as [H1%N.leb_le H2%N.leb_le].
    assert (Hcases : c ∈ (N.of_nat <$> seq 65 26)).
    { apply list_elem_of_fmap. exists (N.to_nat c). split; [lia|].
      apply elem_of_seq. lia. }
    vm_compute in Hcases. unfold alphabet.
    repeat (apply elem_of_cons in Hcases as [->|Hcases]; [set_solver|]).
    by apply elem_of_nil in Hcases.
Qed.

(** The letters to create hold the letter of every classified actor. *)
Lemma lettersFor_covers cfg (actors : list Actor) a L :
  a ∈ actors → normalizeLetter (a_name a) = Some L → L ∈ lettersFor cfg actors.
Proof.
  intros Ha HL. unfold lettersFor.
  destruct (normalizeLetter_Some _ _ HL) as (c & -> & Hc).
  destruct (createAllLetters cfg).
  - apply elem_of_alphabet. by exists c.
  - apply elem_of_sortStrings, elem_of_setFrom, elem_of_filterBoolean.
    split; [|done]. apply list_elem_of_fmap. by exists a.
Qed.

Lemma lettersFor_length cfg (actors : list Actor) :
  Forall (λ L, length L = 1%nat) (lettersFor cfg actors).
Proof.
  apply Forall_forall. intros L. unfold lettersFor.
  destruct (createAllLetters cfg).
  - intros (c & -> & _)%elem_of_alphabet. done.
  - rewrite elem_of_sortStrings, elem_of_setFrom, elem_of_filterBoolean.
    intros [(a & HL & _)%list_elem_of_fmap _].
    symmetry in HL. by destruct (normalizeLetter_Some _ _ HL) as (c & -> & _).
Qed.

(** Without [createAllLetters], a letter to create is the letter of some
    actor of the list. *)
Lemma lettersFor_from_actor cfg (actors : list Actor) L :
  createAllLetters cfg = false → L ∈ lettersFor cfg actors →
  ∃ a, a ∈ actors ∧ normalizeLetter (a_name a) = Some L.
Proof.
  unfold lettersFor. intros ->.
  rewrite elem_of_sortStrings, elem_of_setFrom, elem_of_filterBoolean.
  intros [(a & HL & Ha)%list_elem_of_fmap _]. by exists a.
Qed.

(** When grouping, the types hold the stringified type of every actor. *)
Lemma typesFor_grouped cfg (actors : list Actor) t :
  groupByType cfg = true →
  t ∈ typesFor cfg actors ↔ ∃ a, a ∈ actors ∧ t = JStr (String_ (a_type a)).
Proof.
  unfold typesFor. intros ->. rewrite list_elem_of_fmap. split.
  - intros (s & -> & Hs). rewrite elem_of_sortStrings, elem_of_setFrom in Hs.
    apply list_elem_of_fmap in Hs as (a & -> & Ha). by exists a.
  - intros (a & Ha & ->). eexists. split; [done|].
    apply elem_of_sortStrings, elem_of_setFrom, list_elem_of_fmap. by exists a.
Qed.

Lemma typesFor_ungrouped cfg (actors : list Actor) :
  groupByType cfg = false → typesFor cfg actors = [JNull].
Proof. unfold typesFor. by intros ->. Qed.

Lemma partitionOf_types cfg (actors : list Actor) a :
  a ∈ actors → partitionOf cfg a ∈ typesFor cfg actors.
Proof.
  intros Ha. unfold partitionOf. destruct (groupByType cfg) eqn:Hg.
  - apply typesFor_grouped; [done|]. by exists a.
  - rewrite typesFor_ungrouped by done. by left.
Qed.

Lemma partitionOf_key cfg a L :
  bucketKey (groupByType cfg) (partitionOf cfg a) L
  = bucketKey (groupByType cfg) (a_type a) L.
Proof. unfold partitionOf, bucketKey. by destruct (groupByType cfg). Qed.

Lemma updateDocuments_nil (folders : list Folder) (actors : list Actor) :
  updateDocuments folders [] actors = actors.
Proof. done. Qed.

(** A run, with its early exits spelled out. *)
Lemma runAlphabetizer_unfold cfg w :
  runAlphabetizer newId cfg w
  = let actors := scopedActors cfg w in
    if decide (actors = []) then mkOutcome w [] WarnNoActorsInScope
    else
      let letters := lettersFor cfg actors in
      if decide (letters = []) then mkOutcome w [] WarnNoUsableLetter
      else
        let pass := ensurePass newId cfg (typesFor cfg actors) letters (w_folders w) in
        let updates := planUpdates (groupByType cfg) pass.1.2 actors in
        mkOutcome (mkWorld pass.2 (updateDocuments pass.2 updates (w_actors w)))
                  updates
                  (if decide (updates = []) then InfoNothingToMove
                   else InfoMoved (length updates) (groupByType cfg)).
Proof.
  unfold runAlphabetizer. cbn zeta.
  destruct (scopedActors cfg w) as [|a actors] eqn:Hsc; [done|].
  rewrite decide_False by done.
  destruct (lettersFor cfg (a :: actors)) as [|L letters] eqn:Hl; [done|].
  rewrite decide_False by done.
  destruct (ensurePass newId cfg _ _ _) as [[tids plan] F]. cbn [fst snd].
  by destruct (planUpdates _ plan _).
Qed.

End RunSteps.

(** ** The reconciler: early exits, bucket lookup, no duplicate folders *)

Section Reconciler.

Variable newId : list Folder → id.

Implicit Types (cfg : Config) (w : World) (a : Actor) (L : jsstring).

(** C6. When no actor is in scope, or when [createAllLetters] is off and no
    actor in scope classifies to a letter, the run raises its warning and
    stops: the world is unchanged, no folder is created and no update is
    submitted. *)
Theorem run_stops_without_mutation cfg w :
  scopedActors cfg w = []
  ∨ (createAllLetters cfg = false
     ∧ ∀ a, a ∈ scopedActors cfg w → normalizeLetter (a_name a) = None) →
  out_world (runAlphabetizer newId cfg w) = w
  ∧ out_updates (runAlphabetizer newId cfg w) = []
  ∧ createdBy newId cfg w = []
  ∧ out_notice (runAlphabetizer newId cfg w)
    = (if decide (scopedActors cfg w = []) then WarnNoActorsInScope
       else WarnNoUsableLetter).
Proof.
  intros Hcase.
  assert (Hrun : runAlphabetizer newId cfg w
                 = mkOutcome w []
                     (if decide (scopedActors cfg w = []) then WarnNoActorsInScope
                      else WarnNoUsableLetter)).
  { rewrite runAlphabetizer_unfold. cbn zeta.
    destruct (decide (scopedActors cfg w = [])) as [|Hne]; [done|].
    destruct Hcase as [?|[Hall Hnone]]; [done|].
    rewrite decide_True; [done|].
    destruct (lettersFor cfg (scopedActors cfg w)) as [|L ls] eqn:Hl; [done|].
    destruct (lettersFor_from_actor cfg (scopedActors cfg w) L Hall)
      as (a & Ha & HL); [rewrite Hl; by left|].
    rewrite (Hnone a Ha) in HL. done. }
  unfold createdBy. rewrite Hrun. simpl. by rewrite drop_all.
Qed.

(** C9. For an actor in scope that classifies to a letter, the letter is
    among the letters of the ensure pass and, when grouping, its
    stringified type is among the types; the lookup of its bucket key in
    the map built by the pass returns the id of a folder of the store; and,
    ids of documents being non-empty strings, the move loop never skips the
    actor for want of a destination. *)
Theorem bucket_lookup_succeeds cfg w a L :
  a ∈ scopedActors cfg w →
  normalizeLetter (a_name a) = Some L →
  let actors := scopedActors cfg w in
  let pass := ensurePass newId cfg (typesFor cfg actors) (lettersFor cfg actors)
                (w_folders w) in
  L ∈ lettersFor cfg actors
  ∧ (groupByType cfg = true → JStr (String_ (a_type a)) ∈ typesFor cfg actors)
  ∧ (∃ f, f ∈ pass.2
          ∧ pass.1.2 !! bucketKey (groupByType cfg) (a_type a) L = Some (f_id f))
  ∧ ((∀ f, f ∈ w_folders w → f_id f ≠ []) → (∀ fs, newId fs ≠ []) →
     placement (groupByType cfg) pass.1.2 a ≠ SkipNoDestination).
Proof.
  intros Ha HL actors pass.
  assert (HLin : L ∈ lettersFor cfg actors) by by eapply lettersFor_covers.
  assert (Htin := partitionOf_types cfg actors a Ha).
  destruct pass as [[tids plan] F] eqn:Hpass. cbn [fst snd].
  destruct (ensurePass_keys _ _ _ _ _ _ _ _ Hpass) as (Hpre & Horigin & Hkeys).
  destruct (Hkeys _ _ Htin HLin) as (f & Hf & Hplan).
  rewrite partitionOf_key in Hplan.
  split; [done|]. split; [|split; [by exists f|]].
  - intros Hg. unfold partitionOf in Htin. by rewrite Hg in Htin.
  - intros Hold Hnew. unfold placement. rewrite HL.
    destruct (normalizeLetter_Some _ _ HL) as (c & -> & _).
    cbn [falsy]. cbv zeta. rewrite Hplan.
    assert (Hid : f_id f ≠ []).
    { destruct (Horigin f Hf) as [?|(F' & n' & p' & ->)]; [by apply Hold|].
      apply Hnew. }
    destruct (f_id f) as [|x i] eqn:Hfid; [done|]. cbn [falsy].
    by case_bool_decide.
Qed.

(** C4. The folder-ensure operation reuses the existing Actor folder with
    the given name under the given parent when there is one, and creates a
    folder, appended to the store, only when there is none.  Hence the
    folders created during a run, and over any succession of runs on the
    store they leave, are Actor folders of which none bears the same name
    under the same parent as another Actor folder of the store. *)
Theorem ensureFolder_never_duplicates :
  (∀ name parentId folders,
     resolvable folders parentId →
     match findChildFolder folders name parentId with
     | Some existing =>
         isChild name parentId existing
         ∧ ensureFolder newId name parentId folders = (f_id existing, folders)
     | None =>
         (∀ f, f ∈ folders → ¬ isChild name parentId f)
         ∧ ∃ created,
             isChild name parentId created
             ∧ ensureFolder newId name parentId folders
               = (f_id created, folders ++ [created])
     end)
  ∧ (∀ cfg w,
       resolvable (w_folders w) (parentFolderId cfg) →
       w_folders w `prefix_of` w_folders (out_world (runAlphabetizer newId cfg w))
       ∧ createdDistinct (w_folders w)
           (w_folders (out_world (runAlphabetizer newId cfg w))))
  ∧ (∀ cfgs w,
       Forall (λ cfg, resolvable (w_folders w) (parentFolderId cfg)) cfgs →
       createdDistinct (w_folders w) (w_folders (runMany newId cfgs w))).
Proof.
  assert (Hrun : ∀ cfg w B,
            resolvable (w_folders w) (parentFolderId cfg) →
            B `prefix_of` w_folders w → createdDistinct B (w_folders w) →
            w_folders w `prefix_of` w_folders (out_world (runAlphabetizer newId cfg w))
            ∧ createdDistinct B (w_folders (out_world (runAlphabetizer newId cfg w)))).
  { intros cfg w B Hp HB Hcd. rewrite runAlphabetizer_unfold. cbn zeta.
    destruct (decide (scopedActors cfg w = [])); [done|].
    destruct (decide (lettersFor cfg (scopedActors cfg w) = [])); [done|].
    destruct (ensurePass newId cfg _ _ _) as [[tids plan] F] eqn:Hpass.
    cbn [fst snd out_world w_folders].
    apply ensurePass_spec in Hpass as (Hpre & _ & _ & _ & Hkeep);
      [|done|apply lettersFor_length].
    split; [done | by apply Hkeep]. }
  split; [|split].
  - intros name parentId folders Hp.
    destruct (findChildFolder folders name parentId) as [f|] eqn:Hf.
    + split; [by apply findChildFolder_Some in Hf as [_ ?]|].
      unfold ensureFolder. by rewrite Hf.
    + split; [by apply findChildFolder_None|].
      exists (createFolder newId folders name parentId).
      split; [by apply createFolder_isChild|].
      unfold ensureFolder. by rewrite Hf.
  - intros cfg w Hp. apply Hrun; [done..|apply createdDistinct_refl].
  - intros cfgs w Hall.
    assert (Hgen : ∀ w', w_folders w `prefix_of` w_folders w' →
              createdDistinct (w_folders w) (w_folders w') →
              createdDistinct (w_folders w) (w_folders (runMany newId cfgs w'))).
    { induction Hall as [|cfg cfgs Hcfg _ IH]; intros w' Hpre Hcd; [done|].
      unfold runMany. cbn [foldl].
      destruct (Hrun cfg w' (w_folders w)) as [Hpre' Hcd'];
        [by eapply resolvable_prefix | done | done |].
      apply IH; [by etrans | done]. }
    apply Hgen; [done | apply createdDistinct_refl].
Qed.

End Reconciler.

(** ** Running the reconciler twice *)

Section Idempotence.

Variable newId : list Folder → id.

Implicit Types (cfg : Config) (w : World) (a b : Actor) (L : jsstring).
Implicit Types (F : list Folder) (us : list (id * id)) (plan : gmap jsstring id).
Implicit Types (g : bool).

Lemma updateDocuments_map F us (actors : list Actor) :
  updateDocuments F us actors = map (applyAll F us) actors.
Proof.
  unfold updateDocuments, applyAll. revert actors.
  induction us as [|u us IH]; intros actors; simpl.
  - by rewrite map_id.
  - by rewrite IH, map_map.
Qed.


Lemma applyAll_untouched F us a :
  (∀ u, u ∈ us → u.1 ≠ a_id a) → applyAll F us a = a.
Proof.
  unfold applyAll. revert a. induction us as [|u us IH]; intros a Hus; [done|].
  simpl. unfold applyUpdate at 2.
  rewrite bool_decide_eq_false_2.
  - apply IH. intros v Hv. apply Hus. by right.
  - intros Heq. by apply (Hus u); [left|].
Qed.

Lemma applyAll_moved F us a d :
  (∀ u, u ∈ us → u.1 = a_id a → u.2 = d) →
  (∃ u, u ∈ us ∧ u.1 = a_id a) →
  applyAll F us a = mkActor (a_id a) (a_name a) (a_type a) (resolveFolder F d).
Proof.
  unfold applyAll. revert a. induction us as [|u us IH]; intros a Hsame Hex.
  - destruct Hex as (u & Hu%elem_of_nil & _). done.
  - simpl. unfold applyUpdate at 2. case_bool_decide as Hu.
    + rewrite (Hsame u) by (done || by left).
      set (a1 := mkActor _ _ _ _).
      destruct (decide (Exists (λ v, v.1 = a_id a) us)) as [Hmore|Hnone].
      * apply Exists_exists in Hmore. rewrite (IH a1); [done| |done].
        intros v Hv Hid. apply Hsame; [by right | done].
      * fold (applyAll F us a1). apply applyAll_untouched.
        intros v Hv Hid. apply Hnone, Exists_exists. by exists v.
    + apply IH.
      * intros v Hv. apply Hsame. by right.
      * destruct Hex as (v & [->|Hv]%elem_of_cons & Hid); [congruence|by exists v].
Qed.

Lemma NoDup_ids_eq (actors : list Actor) a b :
  NoDup (a_id <$> actors) → a ∈ actors → b ∈ actors → a_id a = a_id b → a = b.
Proof.
  intros Hnd [i Hi]%list_elem_of_lookup [j Hj]%list_elem_of_lookup Hid.
  assert (i = j) as ->.
  { eapply (NoDup_lookup _ _ _ (a_id a) Hnd).
    - by rewrite list_lookup_fmap, Hi.
    - by rewrite list_lookup_fmap, Hj, Hid. }
  congruence.
Qed.

Lemma elem_of_planUpdates g plan (actors : list Actor) u :
  u ∈ planUpdates g plan actors
  ↔ ∃ a, a ∈ actors ∧ placement g plan a = MoveTo u.2 ∧ u.1 = a_id a.
Proof.
  unfold planUpdates. rewrite list_elem_of_omap. split.
  - intros (a & Ha & Hu). exists a. split; [done|].
    destruct (placement g plan a); simplify_eq/=. done.
  - intros (a & Ha & Hpl & Hid). exists a. split; [done|].
    rewrite Hpl. destruct u; simpl in *. by subst.
Qed.

Lemma scopedActors_elem cfg w a :
  a ∈ scopedActors cfg w
  ↔ actorInScope a (parentFolderId cfg) (includeSubfolders cfg) = true
    ∧ a ∈ w_actors w.
Proof. unfold scopedActors. by rewrite list_elem_of_filter. Qed.

(** Where the batch of a run leaves each actor of the world. *)
Lemma applyAll_planned cfg w plan F a :
  NoDup (a_id <$> w_actors w) →
  a ∈ w_actors w →
  let us := planUpdates (groupByType cfg) plan (scopedActors cfg w) in
  match placement (groupByType cfg) plan a with
  | MoveTo d =>
      a ∈ scopedActors cfg w →
      applyAll F us a = mkActor (a_id a) (a_name a) (a_type a) (resolveFolder F d)
  | _ => applyAll F us a = a
  end
  ∧ (a ∉ scopedActors cfg w → applyAll F us a = a).
Proof.
  intros Hnd Ha us.
  assert (Hmatch : ∀ u, u ∈ us → u.1 = a_id a →
            a ∈ scopedActors cfg w
            ∧ placement (groupByType cfg) plan a = MoveTo u.2).
  { intros u (b & Hb & Hpl & Hid)%elem_of_planUpdates Hu.
    assert (b = a) as ->; [|done].
    eapply NoDup_ids_eq; [done| |done|congruence].
    by apply scopedActors_elem in Hb as [_ ?]. }
  split.
  - destruct (placement (groupByType cfg) plan a) as [| | |d] eqn:Hpl;
      try (apply applyAll_untouched; intros u Hu Hid;
           by destruct (Hmatch u Hu Hid) as [_ ?]).
    intros Hsc. apply applyAll_moved.
    + intros u Hu Hid. destruct (Hmatch u Hu Hid) as [_ ?]. congruence.
    + exists (a_id a, d). split; [|done].
      apply elem_of_planUpdates. by exists a.
  - intros Hout. apply applyAll_untouched. intros u Hu Hid.
    by destruct (Hmatch u Hu Hid) as [? _].
Qed.


Lemma planUpdates_nil g plan (actors : list Actor) :
  (∀ a d, a ∈ actors → placement g plan a ≠ MoveTo d) →
  planUpdates g plan actors = [].
Proof.
  intros Hno. destruct (planUpdates g plan actors) as [|u us] eqn:Hus; [done|].
  assert (Hu : u ∈ planUpdates g plan actors) by (rewrite Hus; by left).
  apply elem_of_planUpdates in Hu as (a & Ha & Hpl & _).
  by destruct (Hno a u.2 Ha).
Qed.

(** The placement of an actor whose bucket resolves to [d]. *)
Lemma placement_resolved g plan a L d :
  normalizeLetter (a_name a) = Some L →
  plan !! bucketKey g (a_type a) L = Some d →
  placement g plan a
  = if falsy d then SkipNoDestination
    else if bool_decide (folderIdOf (a_folder a) = Some d) then SkipAlreadyThere
    else MoveTo d.
Proof.
  intros HL Hd. unfold placement. rewrite HL.
  destruct (normalizeLetter_Some _ _ HL) as (c & -> & _).
  cbn [falsy]. cbv zeta. by rewrite Hd.
Qed.

(** The second of two runs finds every folder and every actor in place. *)
Lemma run_again cfg w :
  NoDup (a_id <$> w_actors w) →
  resolvable (w_folders w) (parentFolderId cfg) →
  let actors := scopedActors cfg w in
  let pass := ensurePass newId cfg (typesFor cfg actors) (lettersFor cfg actors)
                (w_folders w) in
  let us := planUpdates (groupByType cfg) pass.1.2 actors in
  let w1 := mkWorld pass.2 (updateDocuments pass.2 us (w_actors w)) in
  out_updates (runAlphabetizer newId cfg w1) = []
  ∧ w_folders (out_world (runAlphabetizer newId cfg w1)) = pass.2.
Proof.
  intros Hnd Hp actors pass us w1.
  destruct pass as [[tids plan] F] eqn:Hpass. cbn [fst snd] in *.
  destruct (ensurePass_spec _ _ _ _ _ _ _ _ Hpass Hp (lettersFor_length _ _))
    as (Hpre & Htypes & Hall & _ & _).
  destruct (ensurePass_keys _ _ _ _ _ _ _ _ Hpass) as (_ & _ & Hkeys).
  (* every actor in scope of the second run was in scope of the first *)
  assert (Hscope : ∀ a', a' ∈ scopedActors cfg w1 →
            ∃ a, a ∈ actors ∧ a_name a' = a_name a ∧ a_type a' = a_type a
                 ∧ folderIdOf (a_folder a') = folderAfter (groupByType cfg) plan a).
  { intros a' [Hin Ha']%scopedActors_elem. unfold w1 in Ha'. simpl in Ha'.
    rewrite updateDocuments_map in Ha'.
    apply list_elem_of_fmap in Ha' as (a & -> & Ha).
    destruct (applyAll_planned cfg w plan F a Hnd Ha) as [Hmove Hstay].
    change (planUpdates (groupByType cfg) plan (scopedActors cfg w)) with us
      in Hmove, Hstay.
    fold actors in Hmove, Hstay.
    destruct (actorInScope a (parentFolderId cfg) (includeSubfolders cfg)) eqn:Hsc.
    - assert (Hain : a ∈ actors) by by apply scopedActors_elem.
      exists a. split; [done|]. unfold folderAfter.
      destruct (placement (groupByType cfg) plan a) as [| | |d] eqn:Hpl;
        try (rewrite Hmove; by repeat split).
      rewrite (Hmove Hain). simpl. split; [done|]. split; [done|].
      apply resolveFolder_id.
      unfold placement in Hpl.
      destruct (normalizeLetter (a_name a)) as [L|] eqn:HL; [|done].
      destruct (falsy L); [done|]. cbv zeta in Hpl.
      destruct (Hkeys (partitionOf cfg a) L) as (f & Hf & Hplan).
      { by apply partitionOf_types. }
      { by eapply lettersFor_covers. }
      rewrite partitionOf_key in Hplan. rewrite Hplan in Hpl.
      destruct (falsy (f_id f)); [done|].
      case_bool_decide; [done|]. injection Hpl as <-. by exists f.
    - rewrite Hstay in Hin.
      + congruence.
      + unfold actors. rewrite scopedActors_elem. intros [? _]. congruence. }
  rewrite runAlphabetizer_unfold. cbn zeta.
  destruct (decide (scopedActors cfg w1 = [])); [done|].
  destruct (decide (lettersFor cfg (scopedActors cfg w1) = [])); [done|].
  (* the letters and types of the second run are among those of the first *)
  assert (Hletters : ∀ L, L ∈ lettersFor cfg (scopedActors cfg w1) →
            L ∈ lettersFor cfg actors).
  { intros L HL. destruct (createAllLetters cfg) eqn:Hall26.
    - unfold lettersFor in *. by rewrite Hall26 in *.
    - apply lettersFor_from_actor in HL as (a' & Ha' & HL); [|done].
      destruct (Hscope a' Ha') as (a & Ha & Hname & _).
      eapply lettersFor_covers; [done|]. by rewrite <- Hname. }
  assert (Hparts : ∀ t, t ∈ typesFor cfg (scopedActors cfg w1) →
            t ∈ typesFor cfg actors).
  { intros t Ht. destruct (groupByType cfg) eqn:Hg.
    - apply typesFor_grouped in Ht as (a' & Ha' & ->); [|done].
      destruct (Hscope a' Ha') as (a & Ha & _ & Htype & _).
      apply typesFor_grouped; [done|]. exists a. by rewrite Htype.
    - rewrite typesFor_ungrouped in * by done. done. }
  destruct (ensurePass newId cfg _ _ (w_folders w1)) as [[tids2 plan2] F2] eqn:Hpass2.
  cbn [fst snd out_updates out_world w_folders].
  change (w_folders w1) with F in Hpass2.
  apply ensurePass_spec in Hpass2 as (_ & _ & Hall2 & Hsame2 & _);
    [|by eapply resolvable_prefix|apply lettersFor_length].
  assert (F2 = F) as ->.
  { apply Hsame2. split.
    - intros Hg t Ht. destruct (Htypes Hg t (Hparts t Ht)) as (ft & -> & _).
      by eexists.
    - intros t L Ht HL.
      destruct (Hall t L (Hparts t Ht) (Hletters L HL)) as (f & _ & _ & ->).
      by eexists. }
  split; [|done]. apply planUpdates_nil. intros a' d Ha'.
  destruct (Hscope a' Ha') as (a & Ha & Hname & Htype & Hfolder).
  destruct (normalizeLetter (a_name a')) as [L|] eqn:HL;
    [|unfold placement; by rewrite HL].
  assert (Htin := partitionOf_types cfg _ a' Ha').
  assert (HLin : L ∈ lettersFor cfg (scopedActors cfg w1))
    by by eapply lettersFor_covers.
  destruct (Hall2 _ _ Htin HLin) as (f2 & _ & Hplan2 & Hof2).
  destruct (Hall _ _ (Hparts _ Htin) (Hletters _ HLin)) as (f & _ & Hplan1 & Hof1).
  simpl in Hof2.
  rewrite Hof1 in Hof2. injection Hof2 as Hid.
  rewrite partitionOf_key in Hplan1, Hplan2.
  rewrite (placement_resolved _ plan2 a' L (f_id f2) HL Hplan2).
  destruct (falsy (f_id f2)) eqn:Hfalsy; [done|].
  rewrite bool_decide_eq_true_2; [done|].
  rewrite Hfolder. unfold folderAfter.
  rewrite Htype, Hid in Hplan1. rewrite Hname in HL.
  rewrite (placement_resolved _ plan a L (f_id f2) HL Hplan1), Hfalsy.
  by case_bool_decide.
Qed.

(** C1. On a world whose actors have distinct ids, with a configuration
    whose root is null or the id of a folder of the store, running the
    reconciler a second time right after a first run, with the same
    configuration, submits no reassignment and creates no folder: the
    second run leaves the world as the first run left it. *)
Theorem run_twice_idempotent cfg w :
  NoDup (a_id <$> w_actors w) →
  resolvable (w_folders w) (parentFolderId cfg) →
  let w1 := out_world (runAlphabetizer newId cfg w) in
  out_updates (runAlphabetizer newId cfg w1) = []
  ∧ createdBy newId cfg w1 = []
  ∧ out_world (runAlphabetizer newId cfg w1) = w1.
Proof.
  intros Hnd Hp w1.
  assert (Hmain : out_updates (runAlphabetizer newId cfg w1) = []
                  ∧ w_folders (out_world (runAlphabetizer newId cfg w1))
                    = w_folders w1).
  { unfold w1. rewrite (runAlphabetizer_unfold newId cfg w). cbn zeta.
    destruct (decide (scopedActors cfg w = [])) as [Hsc|Hsc].
    { cbn [out_world]. rewrite runAlphabetizer_unfold. cbn zeta.
      by rewrite decide_True. }
    destruct (decide (lettersFor cfg (scopedActors cfg w) = [])) as [Hl|Hl].
    { cbn [out_world]. rewrite runAlphabetizer_unfold. cbn zeta.
      rewrite decide_False by done. by rewrite decide_True. }
    cbn [out_world]. by apply run_again. }
  destruct Hmain as [Hus Hfs]. split; [done|]. split.
  - unfold createdBy. rewrite Hfs. by rewrite drop_all.
  - revert Hus Hfs. rewrite (runAlphabetizer_unfold newId cfg w1). cbn zeta.
    destruct (decide (scopedActors cfg w1 = [])); [done|].
    destruct (decide (lettersFor cfg (scopedActors cfg w1) = [])); [done|].
    cbn [out_updates out_world w_folders]. intros -> ->.
    rewrite updateDocuments_nil. by destruct w1.
Qed.

End Idempotence.

(** ** Creating all the letters *)

Section AllLetters.

Variable newId : list Folder → id.

Implicit Types (cfg : Config) (w : World) (L : jsstring) (F G : list Folder).


Lemma NoDup_alphabet : NoDup alphabet.
Proof. apply (bool_decide_unpack (NoDup alphabet)). by vm_compute. Qed.





End AllLetters.

(** ** The properties on the end-to-end scenario *)

Lemma sampleNewId_nonempty (fs : list Folder) : sampleNewId fs ≠ [].
Proof. done. Qed.

Lemma run_stops_without_mutation_witness :
  let cfg := mkConfig false false (Some (js "nowhere"%string)) true in
  out_world (runAlphabetizer sampleNewId cfg sampleWorld) = sampleWorld
  ∧ out_notice (runAlphabetizer sampleNewId cfg sampleWorld) = WarnNoActorsInScope.
Proof.
  intros cfg.
  destruct (run_stops_without_mutation sampleNewId cfg sampleWorld)
    as (Hw & _ & _ & Hn); [by left|].
  split; [exact Hw | exact Hn].
Defined.

Lemma bucket_lookup_succeeds_witness :
  let cfg := mkConfig false true None true in
  let a := sampleActor "a4" "100 Goblins" "npc" in
  let pass := ensurePass sampleNewId cfg (typesFor cfg (scopedActors cfg sampleWorld))
                (lettersFor cfg (scopedActors cfg sampleWorld))
                (w_folders sampleWorld) in
  js "G"%string ∈ lettersFor cfg (scopedActors cfg sampleWorld)
  ∧ placement true pass.1.2 a ≠ SkipNoDestination.
Proof.
  intros cfg a pass.
  destruct (bucket_lookup_succeeds sampleNewId cfg sampleWorld a (js "G"%string))
    as (HL & _ & _ & Hpl).
  - vm_compute. do 3 right. by left.
  - by vm_compute.
  - split; [exact HL|]. apply Hpl; [|apply sampleNewId_nonempty].
    by intros f Hf%elem_of_nil.
Defined.

Lemma ensureFolder_never_duplicates_witness :
  let cfg := mkConfig true true None true in
  createdDistinct (w_folders sampleWorldWithA)
    (w_folders (out_world (runAlphabetizer sampleNewId cfg sampleWorldWithA))).
Proof.
  intros cfg.
  destruct (ensureFolder_never_duplicates sampleNewId) as (_ & Hrun & _).
  by destruct (Hrun cfg sampleWorldWithA I) as [_ ?].
Defined.

Lemma run_twice_idempotent_witness :
  let cfg := mkConfig false true None true in
  let w1 := out_world (runAlphabetizer sampleNewId cfg sampleWorld) in
  length (out_updates (runAlphabetizer sampleNewId cfg sampleWorld)) = 4%nat
  ∧ out_updates (runAlphabetizer sampleNewId cfg w1) = []
  ∧ createdBy sampleNewId cfg w1 = [].
Proof.
  intros cfg w1.
  assert (Hnd : NoDup (a_id <$> w_actors sampleWorld)).
  { apply (bool_decide_unpack (NoDup (a_id <$> w_actors sampleWorld))).
    by vm_compute. }
  destruct (run_twice_idempotent sampleNewId cfg sampleWorld Hnd I)
    as (Hus & Hcr & _).
  split; [by vm_compute|]. split; [exact Hus | exact Hcr].
Defined.



(** The end-to-end scenario by letter: the folders A, B, G and Z are
    created, each actor lands in the folder of its letter, and four moves
    are reported. *)
Example scenario_by_letter :
  let r := runAlphabetizer sampleNewId (mkConfig false false None true) sampleWorld in
  out_notice r = InfoMoved 4 false
  ∧ f_name <$> w_folders (out_world r) = js <$> ["A"; "B"; "G"; "Z"]%string
  ∧ (λ a, f_name <$> a_folder a) <$> w_actors (out_world r)
    = (Some ∘ js) <$> ["A"; "B"; "Z"; "G"]%string.
Proof. by vm_compute. Qed.

(** The end-to-end scenario by type: one folder per type, then one letter
    folder per bucket in use; an actor without an ASCII letter stays where
    it is and is not counted. *)
Example scenario_by_type :
  let w := mkWorld [] [sampleActor "a1" "Aang" "hero";
                       sampleActor "a2" "Vader" "villain";
                       mkActor (js "a3"%string) (JStr [161; 33]) (JStr (js "hero"%string)) None]%string in
  let r := runAlphabetizer sampleNewId (mkConfig false true None true) w in
  out_notice r = InfoMoved 2 true
  ∧ (λ f, (f_name f, f_name <$> f_folder f)) <$> w_folders (out_world r)
    = [(js "hero", None); (js "villain", None);
       (js "A", Some (js "hero")); (js "V", Some (js "hero"));
       (js "A", Some (js "villain")); (js "V", Some (js "villain"))]%string
  ∧ (λ a, f_name <$> a_folder a) <$> w_actors (out_world r)
    = [Some (js "A"); Some (js "V"); None]%string.
Proof. by vm_compute. Qed.

(** ** More on: The letter classifier, identifiers and breadcrumbs *)

Section LetterClassifierMore.

Lemma normalizeLetter_match (s : jsstring) :
  normalizeLetter (JStr s) = toUpperCase <$> matchLetter s.
Proof.
  unfold normalizeLetter. simpl. rewrite matchLetter_trim.
  by destruct (matchLetter s).
Qed.

Lemma matchLetter_prefix (pre s : jsstring) :
  Forall (λ c, isAsciiLetter c = false) pre →
  matchLetter (pre ++ s) = matchLetter s.
Proof. induction 1 as [|c pre Hc _ IH]; simpl; [done|]. by rewrite Hc. Qed.

(** Names that differ only in the case of their ASCII letters, or only in
    what stands before their first ASCII letter, classify alike. *)
Theorem normalizeLetter_case_and_prefix (s s' pre pre' : jsstring) :
  Forall2 sameUpToCase s s' →
  Forall (λ c, isAsciiLetter c = false) pre →
  Forall (λ c, isAsciiLetter c = false) pre' →
  normalizeLetter (JStr (pre ++ s)) = normalizeLetter (JStr (pre' ++ s')).
Proof.
  intros Hs Hpre Hpre'. rewrite !normalizeLetter_match.
  rewrite !matchLetter_prefix by done. clear Hpre Hpre'.
  induction Hs as [|c d s s' Hcd _ IH]; [done|]. simpl.
  destruct Hcd as [->|(Hc & Hd & Hup)].
  - destruct (isAsciiLetter d); [done | exact IH].
  - rewrite Hc, Hd. simpl. by rewrite Hup.
Qed.

Lemma normalizeLetter_case_and_prefix_witness :
  normalizeLetter (JStr (js "100 goblins"%string))
  = normalizeLetter (JStr (js "  GOBLINS"%string)).
Proof.
  apply (normalizeLetter_case_and_prefix (js "goblins"%string) (js "GOBLINS"%string)
           (js "100 "%string) (js "  "%string)).
  - repeat constructor; right; by vm_compute.
  - repeat constructor.
  - repeat constructor.
Defined.

(** [shortId] keeps the last four code units of the id, or the whole id
    when it is shorter; [null] and [undefined] give the empty string. *)
Theorem shortId_suffix (v : jsval) :
  (∃ pre, nullish_or v [] = pre ++ shortId v)
  ∧ length (shortId v) = (length (nullish_or v []) `min` 4)%nat
  ∧ ((length (nullish_or v []) ≤ 4)%nat → shortId v = nullish_or v []).
Proof.
  unfold shortId, slice_last. set (s := nullish_or v []).
  split; [|split].
  - exists (take (length s - 4) s). by rewrite take_drop.
  - rewrite length_drop. lia.
  - intros Hle. replace (length s - 4)%nat with 0%nat by lia. done.
Qed.

Lemma join_snoc (sep : jsstring) (parts : list jsstring) (x : jsstring) :
  parts ≠ [] → join sep (parts ++ [x]) = join sep parts ++ sep ++ x.
Proof.
  induction parts as [|p [|q parts] IH]; intros Hne; [done|done|].
  change (join sep ((p :: q :: parts) ++ [x]))
    with (p ++ sep ++ join sep ((q :: parts) ++ [x])).
  rewrite IH by done.
  change (join sep (p :: q :: parts)) with (p ++ sep ++ join sep (q :: parts)).
  by rewrite <- !(assoc_L (++)).
Qed.

Lemma crumbParts_nonempty (f : Folder) : crumbParts f ≠ [].
Proof. by destruct f as [i n t [p|]]. Qed.

(** The breadcrumb of a top-level folder is its name; the breadcrumb of
    any other folder is its parent's breadcrumb, the separator, then its
    name. *)
Theorem folderBreadcrumb_step (i n t : jsstring) (p : Folder) :
  folderBreadcrumb (mkFolder i n t None) = n
  ∧ folderBreadcrumb (mkFolder i n t (Some p))
    = folderBreadcrumb p ++ js " / "%string ++ n.
Proof.
  unfold folderBreadcrumb. split; [done|].
  cbn [crumbParts rev]. apply join_snoc.
  intros Hnil. apply (crumbParts_nonempty p).
  apply (f_equal (@rev jsstring)) in Hnil. by rewrite rev_involutive in Hnil.
Qed.

End LetterClassifierMore.

(** ** More on: The descendant index *)

Section DescendantIndexMore.

Implicit Types (fs kids : list Folder) (memo : gmap id (gset id)) (fuel : nat).

(** The children map lists, under each parent id (or [None] for the top
    level), the folders with that parent in collection order, and has no
    entry for an id without children. *)
Theorem buildFolderChildrenMap_entries fs (pid : option id) :
  match buildFolderChildrenMap fs !! pid with
  | Some l => l ≠ [] ∧ l = filter (λ f, folderIdOf (f_folder f) = pid) fs
  | None => filter (λ f, folderIdOf (f_folder f) = pid) fs = []
  end.
Proof.
  assert (Hne : ∀ q l, buildFolderChildrenMap fs !! q = Some l → l ≠ []).
  { unfold buildFolderChildrenMap.
    induction fs as [|f fs IH] using rev_ind; [done|].
    rewrite foldl_app. cbn [foldl]. set (m := foldl _ ∅ fs) in *.
    intros q l. rewrite lookup_insert. case_decide as Hq.
    - intros [= <-]. by destruct (default [] _).
    - destruct (m !! folderIdOf (f_folder f)) eqn:Hm; [by apply IH|].
      rewrite lookup_insert_ne by done. by apply IH. }
  pose proof (buildFolderChildrenMap_lookup fs pid) as Hl.
  destruct (buildFolderChildrenMap fs !! pid) as [l|] eqn:Hm; simpl in Hl.
  - split; [by eapply Hne | done].
  - done.
Qed.

Lemma addKids_sound fs rec kids x set memo set' memo' :
  (∀ m y s m', rec m y = Some (s, m') → soundIndex fs m →
     soundIndex fs m' ∧ ∀ z, z ∈ s → rtc (childOf fs) z y) →
  (∀ k, k ∈ kids → childOf fs (f_id k) x) →
  addKids rec kids set memo = Some (set', memo') →
  soundIndex fs memo → (∀ z, z ∈ set → rtc (childOf fs) z x) →
  soundIndex fs memo' ∧ ∀ z, z ∈ set' → rtc (childOf fs) z x.
Proof.
  intros Hrec. revert set memo.
  induction kids as [|k kids IH]; intros set memo Hkids; simpl.
  - by intros [= <- <-].
  - destruct (rec memo (f_id k)) as [[sk m1]|] eqn:Hk; [|done].
    intros Hadd Hm Hset. destruct (Hrec _ _ _ _ Hk Hm) as [Hm1 Hsk].
    eapply IH; [|done|done|].
    + intros k' Hk'. apply Hkids. by right.
    + intros z [Hz|Hz]%elem_of_union; [by apply Hset|].
      eapply rtc_r; [by apply Hsk|]. apply Hkids. by left.
Qed.

Lemma dfs_sound fs fuel memo x s memo' :
  dfs fuel (buildFolderChildrenMap fs) memo x = Some (s, memo') →
  soundIndex fs memo →
  soundIndex fs memo' ∧ ∀ z, z ∈ s → rtc (childOf fs) z x.
Proof.
  revert memo x s memo'.
  induction fuel as [|fuel IH]; intros memo x s memo'; simpl; [done|].
  destruct (memo !! x) as [sx|] eqn:Hx.
  { intros [= <- <-] Hm. split; [done|]. by eapply Hm. }
  rewrite kids_lookup.
  destruct (addKids _ _ _ _) as [[set m1]|] eqn:Hadd; [|done].
  intros [= <- <-] Hm.
  destruct (addKids_sound fs _ _ x _ _ _ _ IH (kidsOf_childOf fs x) Hadd Hm)
    as [Hm1 Hset].
  { intros z ->%elem_of_singleton. done. }
  split; [|done]. intros y sy. rewrite lookup_insert. case_decide as Hy.
  - intros [= <-]. by subst y.
  - apply Hm1.
Qed.

Lemma dfsAll_sound fs fuel l memo memo' :
  dfsAll fuel (buildFolderChildrenMap fs) l memo = Some memo' →
  soundIndex fs memo → soundIndex fs memo'.
Proof.
  revert memo. induction l as [|f l IH]; intros memo; simpl; [by intros [= <-]|].
  destruct (dfs fuel _ memo (f_id f)) as [[s m1]|] eqn:Hd; [|done].
  intros Hall Hm. eapply IH; [done|]. by eapply dfs_sound.
Qed.

(** A closed index with an entry for every folder holds every
    descendant. *)
Lemma closedIndex_complete fs memo y x :
  closedIndex fs memo → (∀ f, f ∈ fs → is_Some (memo !! f_id f)) →
  rtc (childOf fs) y x →
  ∀ h, h ∈ fs → f_id h = x → ∀ sx, memo !! x = Some sx → y ∈ sx.
Proof.
  intros Hcl Hin. revert x.
  apply (rtc_ind_r (λ x, ∀ h, h ∈ fs → f_id h = x →
                         ∀ sx, memo !! x = Some sx → y ∈ sx)).
  - intros h Hh Hid sx Hsx. destruct (Hcl _ _ Hsx) as [-> _]. set_solver.
  - intros z x Hyz Hzx IH h Hh Hid sx Hsx.
    destruct Hzx as (g & Hg & <- & Hp).
    destruct (Hin g Hg) as [sg Hsg].
    specialize (IH g Hg eq_refl sg Hsg).
    destruct (Hcl _ _ Hsx) as [-> _].
    apply elem_of_union. right. apply elem_of_union_list.
    exists sg. split; [|done].
    apply list_elem_of_fmap. exists g. split.
    + cbn [compose]. unfold memoSet. by rewrite Hsg.
    + unfold kidsOf. by apply list_elem_of_filter.
Qed.

Lemma tc_last {A} (R : relation A) x z :
  tc R x z → ∃ y, rtc R x y ∧ R y z.
Proof.
  induction 1 as [x z Hxz|x y' z Hxy _ (y & Hy & Hyz)].
  - by exists x.
  - exists y. split; [by eapply rtc_l | done].
Qed.

(** In the index of an acyclic forest, the set of a folder holds exactly
    the folder's own id and the ids of all its descendants, direct or not. *)
Theorem buildDescendantsMemo_descendants fuel fs :
  acyclic fs → (length fs ≤ fuel)%nat →
  ∃ memo, buildDescendantsMemo fuel fs = Some memo
    ∧ ∀ f, f ∈ fs →
        ∃ s, memo !! f_id f = Some s
             ∧ ∀ y, y ∈ s ↔ rtc (childOf fs) y (f_id f).
Proof.
  intros Hac Hfuel. unfold buildDescendantsMemo.
  destruct (dfsAll_spec fs fuel fs ∅ Hac Hfuel) as (memo & Hm & _ & Hcl & Hin);
    [done | by intros x s | ].
  pose proof (dfsAll_sound _ _ _ _ _ Hm) as Hsound.
  specialize (Hsound ltac:(by intros x s)).
  exists memo. split; [done|]. intros f Hf.
  destruct (Hin f Hf) as [s Hs]. exists s. split; [done|].
  intros y. split; [by eapply Hsound|].
  intros Hy. by eapply closedIndex_complete.
Qed.

(** A folder on a parent cycle has a child on a parent cycle. *)
Lemma cyclic_kid fs x :
  tc (childOf fs) x x →
  ∃ k, k ∈ kidsOf fs x ∧ tc (childOf fs) (f_id k) (f_id k).
Proof.
  intros Hx. apply tc_last in Hx as (k & Hxk & Hkx).
  pose proof Hkx as (g & Hg & <- & Hp). exists g. split.
  - unfold kidsOf. by apply list_elem_of_filter.
  - eapply tc_rtc_r; [|exact Hxk]. by apply tc_once.
Qed.


Lemma addKids_cycleFree fs rec kids set memo set' memo' :
  (∀ m y s m', rec m y = Some (s, m') → cycleFree fs m →
     cycleFree fs m' ∧ ¬ tc (childOf fs) y y) →
  addKids rec kids set memo = Some (set', memo') →
  cycleFree fs memo →
  cycleFree fs memo' ∧ ∀ k, k ∈ kids → ¬ tc (childOf fs) (f_id k) (f_id k).
Proof.
  intros Hrec. revert set memo.
  induction kids as [|k kids IH]; intros set memo; simpl.
  - intros [= <- <-] Hm. split; [done|]. by intros k Hk%elem_of_nil.
  - destruct (rec memo (f_id k)) as [[sk m1]|] eqn:Hk; [|done].
    intros Hadd Hm. destruct (Hrec _ _ _ _ Hk Hm) as [Hm1 Hnk].
    destruct (IH _ _ Hadd Hm1) as [Hm' Hkids]. split; [done|].
    intros k' [->|Hk']%elem_of_cons; [done | by apply Hkids].
Qed.

Lemma dfs_cycleFree fs fuel memo x s memo' :
  dfs fuel (buildFolderChildrenMap fs) memo x = Some (s, memo') →
  cycleFree fs memo →
  cycleFree fs memo' ∧ ¬ tc (childOf fs) x x.
Proof.
  revert memo x s memo'.
  induction fuel as [|fuel IH]; intros memo x s memo'; simpl; [done|].
  destruct (memo !! x) as [sx|] eqn:Hx.
  { intros [= <- <-] Hm. split; [done|]. apply Hm. by eexists. }
  rewrite kids_lookup.
  destruct (addKids _ _ _ _) as [[set m1]|] eqn:Hadd; [|done].
  intros [= <- <-] Hm.
  destruct (addKids_cycleFree fs _ _ _ _ _ _ IH Hadd Hm) as [Hm1 Hkids].
  assert (Hnx : ¬ tc (childOf fs) x x).
  { intros (k & Hk & Hcyc)%cyclic_kid. by apply (Hkids k). }
  split; [|done]. intros y. rewrite lookup_insert. case_decide as Hy.
  - by subst y.
  - apply Hm1.
Qed.

Lemma dfsAll_cycleFree fs fuel l memo memo' :
  dfsAll fuel (buildFolderChildrenMap fs) l memo = Some memo' →
  cycleFree fs memo →
  ∀ f, f ∈ l → ¬ tc (childOf fs) (f_id f) (f_id f).
Proof.
  revert memo. induction l as [|f l IH]; intros memo; simpl.
  - by intros _ _ f Hf%elem_of_nil.
  - destruct (dfs fuel _ memo (f_id f)) as [[s m1]|] eqn:Hd; [|done].
    intros Hall Hm. destruct (dfs_cycleFree _ _ _ _ _ _ Hd Hm) as [Hm1 Hnf].
    intros f' [->|Hf']%elem_of_cons; [done | by eapply IH].
Qed.

(** The construction of the index returns exactly on acyclic folder lists:
    with a folder on a parent cycle the recursion of [dfs] never returns,
    whatever depth it is allowed. *)
Theorem buildDescendantsMemo_returns_iff_acyclic fs :
  (acyclic fs ↔ ∃ fuel, is_Some (buildDescendantsMemo fuel fs))
  ∧ ∀ f fuel, f ∈ fs → tc (childOf fs) (f_id f) (f_id f) →
      buildDescendantsMemo fuel fs = None.
Proof.
  assert (Hnone : ∀ f fuel, f ∈ fs → tc (childOf fs) (f_id f) (f_id f) →
            buildDescendantsMemo fuel fs = None).
  { intros f fuel Hf Hcyc. unfold buildDescendantsMemo.
    destruct (dfsAll fuel _ fs ∅) as [memo|] eqn:Hall; [|done]. exfalso.
    eapply (dfsAll_cycleFree _ _ _ _ _ Hall); [|done|done].
    intros x [sx Hsx]. by rewrite lookup_empty in Hsx. }
  split; [|done]. split.
  - intros Hac. exists (length fs).
    destruct (dfsAll_spec fs (length fs) fs ∅ Hac) as (memo & Hm & _);
      [done | done | by intros x s | ].
    unfold buildDescendantsMemo. rewrite Hm. by eexists.
  - intros (fuel & memo & Hm) x Hx.
    assert (Hfx : ∃ f, f ∈ fs ∧ f_id f = x).
    { inversion Hx as [a b (f & Hf & Hid & _)|a y b (f & Hf & Hid & _) _];
        by exists f. }
    destruct Hfx as (f & Hf & <-).
    by rewrite (Hnone f fuel Hf Hx) in Hm.
Qed.

(** *** A store that is closed under parents and has distinct ids *)

Lemma resolveFolder_NoDup fs g :
  NoDup (f_id <$> fs) → g ∈ fs → resolveFolder fs (f_id g) = Some g.
Proof.
  intros Hnd [j Hj]%list_elem_of_lookup. unfold resolveFolder.
  destruct (list_find (λ f, f_id f = f_id g) fs) as [[i f]|] eqn:Hfind.
  - apply list_find_Some in Hfind as (Hi & Hid & _). simpl.
    assert (i = j) as ->; [|congruence].
    eapply (NoDup_lookup _ _ _ (f_id g) Hnd).
    + by rewrite list_lookup_fmap, Hi, <- Hid.
    + by rewrite list_lookup_fmap, Hj.
  - apply list_find_None in Hfind. rewrite Forall_forall in Hfind.
    destruct (Hfind g); [by eapply list_elem_of_lookup_2 | done].
Qed.

Lemma NoDup_folder_eq fs f g :
  NoDup (f_id <$> fs) → f ∈ fs → g ∈ fs → f_id f = f_id g → f = g.
Proof.
  intros Hnd Hf Hg Hid.
  pose proof (resolveFolder_NoDup fs f Hnd Hf) as H1.
  pose proof (resolveFolder_NoDup fs g Hnd Hg) as H2.
  rewrite Hid in H1. congruence.
Qed.

Lemma closed_store_acyclic fs :
  NoDup (f_id <$> fs) → parentClosed fs → acyclic fs.
Proof.
  intros Hnd Hcl. apply (acyclic_of_rank fs (depthOf fs)).
  apply Forall_forall. intros f Hf.
  destruct (f_folder f) as [p|] eqn:Hp; [|done]. simpl.
  unfold depthOf.
  rewrite (resolveFolder_NoDup fs p Hnd (Hcl _ _ Hf Hp)).
  rewrite (resolveFolder_NoDup fs f Hnd Hf). simpl.
  destruct f as [i n t q]. simpl in Hp. subst q. simpl. lia.
Qed.

(** In such a store the strict descendants by id are the strict
    descendants along the parent chain. *)
Lemma tc_childOf_chain fs g r :
  NoDup (f_id <$> fs) → parentClosed fs → g ∈ fs →
  tc (childOf fs) (f_id g) r ↔ strictDescendantOf g r.
Proof.
  intros Hnd Hcl Hg. split.
  - intros Htc. remember (f_id g) as x eqn:Hx. revert g Hg Hx.
    induction Htc as [x z Hxz|x y z Hxy _ IH]; intros g Hg ->.
    + destruct Hxz as (f & Hf & Hid & Hp).
      assert (f = g) as -> by by eapply NoDup_folder_eq.
      destruct (f_folder g) as [p|] eqn:Hgp; [|done]. simpl in Hp.
      exists p. split; [by apply ancestor_parent | congruence].
    + destruct Hxy as (f & Hf & Hid & Hp).
      assert (f = g) as -> by by eapply NoDup_folder_eq.
      destruct (f_folder g) as [p|] eqn:Hgp; [|done]. simpl in Hp.
      injection Hp as Hp.
      destruct (IH p) as (q & Hq & Hqid); [by eapply Hcl | done |].
      exists q. split; [by eapply ancestor_up | done].
  - intros (q & Hq & <-).
    induction Hq as [g Hgq|g p Hgp Hq IH].
    + apply tc_once. exists g. split; [done|]. split; [done|]. by rewrite Hgq.
    + eapply tc_l; [|apply IH; by eapply Hcl].
      exists g. split; [done|]. split; [done|]. by rewrite Hgp.
Qed.

Lemma filter_ext_in {A} (P Q : A → Prop)
    `{!∀ x, Decision (P x), !∀ x, Decision (Q x)} (l : list A) :
  (∀ x, x ∈ l → P x ↔ Q x) → filter P l = filter Q l.
Proof.
  induction l as [|x l IH]; intros Hext; [done|].
  rewrite !filter_cons. rewrite IH by (intros y Hy; apply Hext; by right).
  destruct (decide (P x)) as [HP|HP].
  - rewrite decide_True; [done|]. apply Hext; [by left | done].
  - rewrite decide_False; [done|]. intros HQ. apply HP, Hext; [by left | done].
Qed.

(** The counts shown for a folder in the dialog are the numbers of actors
    that a run scoped to that folder affects: [direct] without subfolders,
    [withSubfolders] with them.  The store is the host's: Actor folders
    with distinct ids, closed under parents, in which the folder of every
    actor lies. *)
Theorem counts_match_scope (fuel : nat) (w : World) (f : Folder) (cal gbt : bool) :
  let fs := filter (λ f, f_type f = Actor_) (w_folders w) in
  NoDup (f_id <$> fs) → parentClosed fs →
  (∀ a g, a ∈ w_actors w → a_folder a = Some g → g ∈ fs) →
  (length fs ≤ fuel)%nat → f ∈ fs →
  ∃ memo, buildDescendantsMemo fuel fs = Some memo
    ∧ countActorsForFolder (f_id f) (w_actors w) memo
      = (length (scopedActors (mkConfig cal gbt (Some (f_id f)) false) w),
         length (scopedActors (mkConfig cal gbt (Some (f_id f)) true) w)).
Proof.
  intros fs Hnd Hcl Hact Hfuel Hf.
  pose proof (closed_store_acyclic fs Hnd Hcl) as Hac.
  destruct (dfsAll_spec fs fuel fs ∅ Hac Hfuel) as (memo & Hm & _ & Hclosed & Hall);
    [done | by intros x s | ].
  pose proof (dfsAll_sound _ _ _ _ _ Hm) as Hsound.
  specialize (Hsound ltac:(by intros x s)).
  exists memo. split; [done|].
  destruct (Hall f Hf) as [s Hs].
  assert (Hmem : ∀ y, y ∈ s ↔ rtc (childOf fs) y (f_id f)).
  { intros y. split; [by eapply Hsound | intros Hy; by eapply closedIndex_complete]. }
  unfold countActorsForFolder, scopedActors. rewrite Hs. simpl. f_equal.
  - f_equal. apply filter_ext_in. intros a Ha.
    case_bool_decide; naive_solver.
  - f_equal. apply filter_ext_in. intros a Ha.
    destruct (a_folder a) as [g|] eqn:Hg; simpl; [|done].
    specialize (Hact a g Ha Hg).
    rewrite bool_decide_eq_true, Hmem, rtc_tc, tc_childOf_chain by done.
    rewrite <- isDescendantFolder_iff.
    case_bool_decide as Hid.
    + split; [done|]. intros _. left. congruence.
    + split; [|by right]. intros [?|?]; [congruence | done].
Qed.

End DescendantIndexMore.

(** ** More on: The dialog *)

Section DialogMore.

Implicit Types (w : World) (lc : jsstring → jsstring → bool) (fuel : nat).

Lemma folderOptions_ids memo (fs : list Folder) (actors : list Actor) :
  o_id <$> folderOptions memo fs actors = f_id <$> fs.
Proof.
  unfold folderOptions, rawEntries.
  rewrite <- !list_fmap_compose. apply list_fmap_ext. intros i f _. simpl.
  by destruct (countActorsForFolder (f_id f) actors memo).
Qed.

(** What a rendered dialog shows, in terms of the index that was built. *)
Lemma rendered_options lc fuel w opts :
  openAlphabetizerDialog true lc fuel w = Some (Rendered opts) →
  ∃ memo,
    buildDescendantsMemo fuel (filter (λ f, f_type f = Actor_) (w_folders w))
    = Some memo
    ∧ opts = rootOption w
             :: merge_sort (optionLe lc)
                  (folderOptions memo
                     (filter (λ f, f_type f = Actor_) (w_folders w)) (w_actors w)).
Proof.
  unfold openAlphabetizerDialog. cbn [negb]. intros Hopts.
  destruct (buildDescendantsMemo _ _) as [memo|] eqn:Hmemo; [|done].
  injection Hopts as <-. by exists memo.
Qed.

(** A rendered dialog offers the root option first, then exactly one
    option per Actor folder, valued with the folder's id; when the host's
    collation is total these options are in collation order of their
    labels. *)
Theorem dialog_options_structure lc fuel w opts :
  openAlphabetizerDialog true lc fuel w = Some (Rendered opts) →
  ∃ rest,
    opts = rootOption w :: rest
    ∧ o_id <$> rest ≡ₚ f_id <$> filter (λ f, f_type f = Actor_) (w_folders w)
    ∧ ((∀ a b, lc a b = true ∨ lc b a = true) → Sorted (optionLe lc) rest).
Proof.
  intros (memo & _ & ->)%rendered_options. eexists. split; [done|]. split.
  - rewrite merge_sort_Permutation. by rewrite folderOptions_ids.
  - intros Htotal. apply Sorted_merge_sort.
    intros a b. apply Htotal.
Qed.

Lemma filter_none {A} (P : A → Prop) `{!∀ x, Decision (P x)} (l : list A) :
  (∀ y, y ∈ l → ¬ P y) → filter P l = [].
Proof.
  induction l as [|x l IH]; intros Hno; [done|].
  rewrite filter_cons_False by (apply Hno; by left).
  apply IH. intros y Hy. apply Hno. by right.
Qed.

Lemma filter_single {A} (P : A → Prop) `{!∀ x, Decision (P x)} (l : list A) i x :
  l !! i = Some x → P x → (∀ j y, l !! j = Some y → P y → j = i) →
  filter P l = [x].
Proof.
  intros Hi HP Huniq.
  rewrite <- (take_drop_middle l i x Hi), filter_app, filter_cons_True by done.
  rewrite !filter_none; [done|..].
  - intros y [j Hj]%list_elem_of_lookup Hy. rewrite lookup_drop in Hj.
    specialize (Huniq _ _ Hj Hy). lia.
  - intros y [j Hj]%list_elem_of_lookup Hy.
    pose proof (lookup_lt_Some _ _ _ Hj) as Hlt. rewrite length_take in Hlt.
    rewrite lookup_take_lt in Hj by lia.
    specialize (Huniq _ _ Hj Hy). lia.
Qed.

(** A folder whose breadcrumb no other Actor folder shares is shown with
    its breadcrumb and counts alone, without the id suffix. *)
Theorem unique_breadcrumb_plain_label lc fuel w opts (i : nat) (f : Folder) :
  openAlphabetizerDialog true lc fuel w = Some (Rendered opts) →
  filter (λ f, f_type f = Actor_) (w_folders w) !! i = Some f →
  (∀ j g, filter (λ f, f_type f = Actor_) (w_folders w) !! j = Some g →
          folderBreadcrumb g = folderBreadcrumb f → j = i) →
  ∃ memo,
    buildDescendantsMemo fuel (filter (λ f, f_type f = Actor_) (w_folders w))
    = Some memo
    ∧ mkOption (f_id f)
        (folderBreadcrumb f ++ js " ("%string
         ++ (showNat (countActorsForFolder (f_id f) (w_actors w) memo).1
             ++ js "/"%string
             ++ showNat (countActorsForFolder (f_id f) (w_actors w) memo).2)
         ++ js ")"%string) ∈ opts.
Proof.
  unfold openAlphabetizerDialog. cbn [negb]. intros Hopts Hf Huniq.
  destruct (buildDescendantsMemo _ _) as [memo|] eqn:Hmemo; [|done].
  injection Hopts as <-. exists memo. split; [done|].
  right. rewrite merge_sort_Permutation.
  eapply (list_elem_of_lookup_2 _ i). unfold folderOptions.
  rewrite list_lookup_fmap, (rawEntries_lookup _ _ _ _ _ Hf). simpl.
  unfold optionOf. cbn [r_id r_crumb r_direct r_withSubfolders].
  rewrite bool_decide_eq_false_2; [done|].
  rewrite countsByCrumb_lookup.
  erewrite (filter_single _ _ i); [simpl; lia|by apply rawEntries_lookup|done|].
  intros j r Hr Hcrumb. unfold rawEntries in Hr.
  rewrite list_lookup_fmap in Hr.
  destruct (filter _ (w_folders w) !! j) as [g|] eqn:Hg; [|done].
  simpl in Hr. injection Hr as <-.
  apply (Huniq j g Hg).
  by destruct (countActorsForFolder (f_id g) (w_actors w) memo).
Qed.

(** Whatever option of a rendered dialog the user picks, the Run button
    hands [runAlphabetizer] a root that is null or the id of a folder of
    the store: null for the root option, the folder's id otherwise. *)
Theorem dialog_config_resolvable lc fuel w opts (o : OptionEntry) (fd : FormData) :
  openAlphabetizerDialog true lc fuel w = Some (Rendered opts) →
  o ∈ opts →
  fd_parentFolder fd = JStr (o_id o) →
  resolvable (w_folders w) (parentFolderId (configOfForm fd))
  ∧ parentFolderId (configOfForm fd)
    = (if bool_decide (o_id o = js "root"%string) then None else Some (o_id o)).
Proof.
  intros Hopts Ho Hfd.
  apply rendered_options in Hopts as (memo & _ & ->).
  assert (Hcfg : parentFolderId (configOfForm fd)
                 = (if bool_decide (o_id o = js "root"%string) then None
                    else Some (o_id o))).
  { unfold configOfForm. rewrite Hfd. done. }
  split; [|done]. rewrite Hcfg.
  case_bool_decide as Hroot; [done|].
  apply elem_of_cons in Ho as [->|Ho]; [done|].
  rewrite merge_sort_Permutation in Ho.
  assert (Hin : o_id o ∈ o_id <$> folderOptions memo
                  (filter (λ f, f_type f = Actor_) (w_folders w)) (w_actors w))
    by (apply list_elem_of_fmap; by exists o).
  rewrite folderOptions_ids in Hin.
  apply list_elem_of_fmap in Hin as (f & Hid & Hf).
  apply list_elem_of_filter in Hf as [_ Hf]. by exists f.
Qed.

End DialogMore.

(** ** More on: The folder-ensure pass *)

Section EnsureMore.

Variable newId : list Folder → id.

Implicit Types (F G B : list Folder) (p : option id) (m : gmap jsstring id).
Implicit Types (g : bool) (t : jsval) (L : jsstring) (tids : gmap jsstring id).
Implicit Types (cfg : Config) (w : World).

(** Ensuring the same folder twice: the second call finds what the first
    one found or created, returns the same id and leaves the store as it
    is; a call never removes or reorders folders and adds at most one. *)
Theorem ensureFolder_twice (name : jsstring) p F :
  resolvable F p →
  let r := ensureFolder newId name p F in
  ensureFolder newId name p r.2 = r
  ∧ F `prefix_of` r.2
  ∧ (length r.2 ≤ S (length F))%nat
  ∧ ∃ f, f ∈ r.2 ∧ isChild name p f ∧ f_id f = r.1.
Proof.
  intros Hp r. destruct r as [i F'] eqn:Hr. cbn [fst snd].
  destruct (ensureFolder_spec _ _ _ _ _ _ Hr Hp) as (f & Hf & Hi & Hcase).
  split; [|split; [|split]].
  - unfold ensureFolder. rewrite Hf. by rewrite Hi.
  - destruct Hcase as [[_ ->]|(_ & -> & _)]; [done | by eexists].
  - destruct Hcase as [[_ ->]|(_ & -> & _)]; [lia|].
    rewrite length_app. simpl. lia.
  - exists f. by apply findChildFolder_Some in Hf as [? ?].
Qed.

(** A property of the store that folder creation keeps is kept by the
    ensure pass. *)
Lemma ensureFolder_invariant (P : list Folder → Prop) (n : jsstring) p F i F' :
  (∀ F n p, P F → P (F ++ [createFolder newId F n p])) →
  P F → ensureFolder newId n p F = (i, F') → P F'.
Proof.
  intros Hstep HP He.
  destruct (ensureFolder_grows _ _ _ _ _ _ He) as [[->| ->] _]; auto.
Qed.

Lemma ensureEach_invariant {X} (P : list Folder → Prop)
    (key name : X → jsstring) p xs m0 F0 m F :
  (∀ F n p, P F → P (F ++ [createFolder newId F n p])) →
  P F0 → ensureEach newId key name p xs (m0, F0) = (m, F) → P F.
Proof.
  intros Hstep. revert m0 F0. induction xs as [|x xs IH]; intros m0 F0 HP He.
  - by injection He as <- <-.
  - rewrite ensureEach_cons in He.
    destruct (ensureFolder newId (name x) p F0) as [i F1] eqn:Hens.
    eapply IH; [|exact He]. by eapply ensureFolder_invariant.
Qed.

Lemma ensureLetterFolders_invariant (P : list Folder → Prop)
    g p tids types letters m0 F0 m F :
  (∀ F n p, P F → P (F ++ [createFolder newId F n p])) →
  P F0 → ensureLetterFolders newId g p tids types letters (m0, F0) = (m, F) →
  P F.
Proof.
  intros Hstep. revert m0 F0. induction types as [|t ts IH]; intros m0 F0 HP He.
  - by injection He as <- <-.
  - rewrite ensureLetterFolders_cons, ensureLettersOf_each in He.
    destruct (ensureEach newId (bucketKey g t) (λ L, L)
                (baseParentOf g p tids t) letters (m0, F0)) as [m1 F1] eqn:Hhead.
    eapply IH; [|exact He]. by eapply ensureEach_invariant.
Qed.

Lemma ensurePass_invariant (P : list Folder → Prop) cfg types letters F0 tids plan F :
  (∀ F n p, P F → P (F ++ [createFolder newId F n p])) →
  P F0 → ensurePass newId cfg types letters F0 = (tids, plan, F) → P F.
Proof.
  intros Hstep HP. unfold ensurePass.
  destruct (if groupByType cfg
            then ensureTypeFolders newId (parentFolderId cfg) types (∅, F0)
            else (∅, F0)) as [tids1 F1] eqn:Htypes.
  destruct (ensureLetterFolders newId (groupByType cfg) (parentFolderId cfg)
              tids1 types letters (∅, F1)) as [plan1 F2] eqn:Hletters.
  intros [= <- <- <-].
  eapply ensureLetterFolders_invariant; [done| |exact Hletters].
  destruct (groupByType cfg).
  - rewrite ensureTypeFolders_each in Htypes. by eapply ensureEach_invariant.
  - by injection Htypes as <- <-.
Qed.

(** The folders a loop appends are children of the loop's parent, named
    after elements of the loop. *)
Lemma ensureEach_created {X} (Q : Folder → Prop) (key name : X → jsstring)
    p xs B m0 F0 m F :
  ensureEach newId key name p xs (m0, F0) = (m, F) →
  resolvable F0 p →
  (∀ x c, x ∈ xs → isChild (name x) p c → Q c) →
  B `prefix_of` F0 → Forall Q (drop (length B) F0) →
  Forall Q (drop (length B) F).
Proof.
  revert m0 F0. induction xs as [|x xs IH]; intros m0 F0 He Hp HQ HB HF0.
  - by injection He as <- <-.
  - rewrite ensureEach_cons in He.
    destruct (ensureFolder newId (name x) p F0) as [i F1] eqn:Hens.
    cbn [fst snd] in He.
    destruct (ensureFolder_spec _ _ _ _ _ _ Hens Hp) as (f & Hf & _ & Hcase).
    apply findChildFolder_Some in Hf as [_ Hch].
    assert (Hpre1 : F0 `prefix_of` F1).
    { destruct Hcase as [[_ ->]|(_ & -> & _)]; [done | by eexists]. }
    eapply IH; [exact He| | |by etrans|].
    + by eapply resolvable_prefix.
    + intros y c Hy. apply HQ. by right.
    + destruct Hcase as [[_ ->]|(_ & -> & _)]; [done|].
      rewrite drop_app_le by (by apply prefix_length).
      apply Forall_app. split; [done|]. constructor; [|done].
      eapply HQ; [by left | done].
Qed.

Lemma ensureLetterFolders_created (Q : Folder → Prop)
    g p tids types letters B m0 F0 m F :
  ensureLetterFolders newId g p tids types letters (m0, F0) = (m, F) →
  (∀ t, t ∈ types → resolvable F0 (baseParentOf g p tids t)) →
  (∀ t L c, t ∈ types → L ∈ letters →
     isChild L (baseParentOf g p tids t) c → Q c) →
  B `prefix_of` F0 → Forall Q (drop (length B) F0) →
  Forall Q (drop (length B) F).
Proof.
  revert m0 F0. induction types as [|t ts IH]; intros m0 F0 He Hres HQ HB HF0.
  - by injection He as <- <-.
  - rewrite ensureLetterFolders_cons, ensureLettersOf_each in He.
    destruct (ensureEach newId (bucketKey g t) (λ L, L)
                (baseParentOf g p tids t) letters (m0, F0)) as [m1 F1] eqn:Hhead.
    assert (Hpre1 : F0 `prefix_of` F1).
    { by apply ensureEach_keys in Hhead as (? & _). }
    eapply IH; [exact He| | |by etrans|].
    + intros t' Ht'. eapply resolvable_prefix; [done|]. apply Hres. by right.
    + intros t' L c Ht'. apply HQ. by right.
    + eapply ensureEach_created; [exact Hhead| | |done|done].
      * apply Hres. by left.
      * intros L c HL. apply HQ; [by left | done].
Qed.

End EnsureMore.

(** ** More on: The reconciler *)

Section RunMore.

Variable newId : list Folder → id.

Implicit Types (F G B : list Folder) (p : option id) (m : gmap jsstring id).
Implicit Types (cfg : Config) (w : World) (a b : Actor) (L : jsstring).
Implicit Types (us : list (id * id)).




(** With distinct actor ids, a run leaves in place every actor that is out
    of scope and every actor whose name has no ASCII letter. *)
Theorem run_leaves_others cfg w (i : nat) a :
  NoDup (a_id <$> w_actors w) →
  w_actors w !! i = Some a →
  actorInScope a (parentFolderId cfg) (includeSubfolders cfg) = false
  ∨ normalizeLetter (a_name a) = None →
  w_actors (out_world (runAlphabetizer newId cfg w)) !! i = Some a.
Proof.
  intros Hnd Hi Hcase. rewrite runAlphabetizer_unfold. cbn zeta.
  destruct (decide (scopedActors cfg w = [])); [done|].
  destruct (decide (lettersFor cfg (scopedActors cfg w) = [])); [done|].
  cbn [out_world w_actors]. rewrite updateDocuments_map.
  rewrite list_lookup_fmap, Hi. simpl. f_equal.
  destruct (ensurePass newId cfg _ _ _) as [[tids plan] F]. cbn [fst snd].
  destruct (applyAll_planned cfg w plan F a Hnd) as [Hplaced Hout].
  { by eapply list_elem_of_lookup_2. }
  destruct Hcase as [Hsc|HL].
  - apply Hout. rewrite scopedActors_elem. intros [? _]. congruence.
  - unfold placement in Hplaced. by rewrite HL in Hplaced.
Qed.

Lemma planUpdates_targets (g : bool) (plan : gmap jsstring id) (actors : list Actor) :
  (planUpdates g plan actors).*1 `sublist_of` a_id <$> actors.
Proof.
  unfold planUpdates.
  induction actors as [|a l IH]; [done|]. simpl.
  destruct (placement g plan a); simpl;
    (by apply sublist_skip) || (by apply sublist_cons).
Qed.

Lemma scopedActors_sublist cfg w : scopedActors cfg w `sublist_of` w_actors w.
Proof. unfold scopedActors. apply sublist_filter. Qed.

(** The batch of a run: at most one update per actor (ids being distinct),
    each for an actor in scope that sits elsewhere, each towards a folder
    of the store as the run leaves it; the count reported is their
    number. *)
Theorem run_updates_well_formed cfg w :
  NoDup (a_id <$> w_actors w) →
  let r := runAlphabetizer newId cfg w in
  NoDup (out_updates r).*1
  ∧ (length (out_updates r) ≤ length (scopedActors cfg w))%nat
  ∧ (∀ u, u ∈ out_updates r →
       (∃ a, a ∈ scopedActors cfg w ∧ a_id a = u.1
             ∧ folderIdOf (a_folder a) ≠ Some u.2)
       ∧ ∃ f, f ∈ w_folders (out_world r) ∧ f_id f = u.2)
  ∧ (out_updates r = [] ∨ out_notice r = InfoMoved (length (out_updates r))
                                           (groupByType cfg)).
Proof.
  intros Hnd r. unfold r. rewrite runAlphabetizer_unfold. cbn zeta.
  destruct (decide (scopedActors cfg w = [])) as [|Hsc].
  { simpl. split; [constructor|]. split; [lia|]. split; [|by left].
    by intros u Hu%elem_of_nil. }
  destruct (decide (lettersFor cfg (scopedActors cfg w) = [])) as [|Hl].
  { simpl. split; [constructor|]. split; [lia|]. split; [|by left].
    by intros u Hu%elem_of_nil. }
  destruct (ensurePass newId cfg _ _ _) as [[tids plan] F] eqn:Hpass.
  cbn [fst snd out_updates out_world w_folders out_notice].
  destruct (ensurePass_keys _ _ _ _ _ _ _ _ Hpass) as (_ & _ & Hkeys).
  set (us := planUpdates (groupByType cfg) plan (scopedActors cfg w)).
  assert (Hsub : us.*1 `sublist_of` a_id <$> w_actors w).
  { etrans; [apply planUpdates_targets|].
    apply fmap_sublist, scopedActors_sublist. }
  split; [by eapply sublist_NoDup|]. split; [|split].
  - rewrite <- (length_fmap fst us), <- (length_fmap a_id (scopedActors cfg w)).
    apply sublist_length, planUpdates_targets.
  - intros u (a & Ha & Hpl & Hid)%elem_of_planUpdates.
    unfold placement in Hpl.
    destruct (normalizeLetter (a_name a)) as [L|] eqn:HL; [|done].
    destruct (falsy L); [done|]. cbv zeta in Hpl.
    destruct (Hkeys (partitionOf cfg a) L) as (f & Hf & Hplan).
    { by apply partitionOf_types. }
    { by eapply lettersFor_covers. }
    rewrite partitionOf_key in Hplan. rewrite Hplan in Hpl.
    destruct (falsy (f_id f)); [done|].
    case_bool_decide as Hthere; [done|]. injection Hpl as Hu.
    split; [exists a; by rewrite <- Hu | exists f; by rewrite <- Hu].
  - destruct (decide (us = [])); [by left | by right].
Qed.


(** *** Where a run puts the actors and the folders *)

Lemma partitionOf_String cfg a :
  groupByType cfg = true → String_ (partitionOf cfg a) = String_ (a_type a).
Proof. unfold partitionOf. by intros ->. Qed.

(** After the ensure pass every bucket of a type and a letter of the run
    has its folder, whose id the plan records. *)
Lemma bucket_resolved cfg (actors : list Actor) F0 tids plan F a L :
  ensurePass newId cfg (typesFor cfg actors) (lettersFor cfg actors) F0
  = (tids, plan, F) →
  resolvable F0 (parentFolderId cfg) →
  a ∈ actors → L ∈ lettersFor cfg actors →
  ∃ f, plan !! bucketKey (groupByType cfg) (a_type a) L = Some (f_id f)
       ∧ bucketFolder cfg F (a_type a) L f.
Proof.
  intros Hpass Hp Ha HL.
  destruct (ensurePass_spec _ _ _ _ _ _ _ _ Hpass Hp (lettersFor_length _ _))
    as (_ & Htypes & Hall & _ & _).
  pose proof (partitionOf_types cfg actors a Ha) as Ht.
  destruct (Hall _ _ Ht HL) as (f & Hf & Hplan & _).
  rewrite partitionOf_key in Hplan.
  exists f. split; [done|].
  apply findChildFolder_Some in Hf as [Hin Hch].
  split; [done|]. unfold baseParentOf in Hch.
  destruct (groupByType cfg) eqn:Hg; [|done].
  destruct (Htypes eq_refl _ Ht) as (ft & Hft & Htid).
  rewrite Htid in Hch. rewrite partitionOf_String in Hft by done.
  apply findChildFolder_Some in Hft as [Hftin Hftch]. by exists ft.
Qed.

Lemma storeOK_create F (n : jsstring) p :
  freshHost newId →
  NoDup (f_id <$> F) ∧ (∀ f, f ∈ F → f_id f ≠ []) →
  NoDup (f_id <$> (F ++ [createFolder newId F n p]))
  ∧ (∀ f, f ∈ F ++ [createFolder newId F n p] → f_id f ≠ []).
Proof.
  intros Hfresh [Hnd Hne]. destruct (Hfresh F) as [Hnew Hnew']. split.
  - rewrite fmap_app. apply NoDup_app. split; [done|]. split.
    + intros x Hx [->|[]%elem_of_nil]%elem_of_cons. done.
    + apply NoDup_singleton.
  - intros f [Hf| ->%list_elem_of_singleton]%elem_of_app; [by apply Hne | done].
Qed.

(** Where the batch planned from an ensure pass leaves an actor in scope
    whose name has a letter. *)
Lemma placed_in_bucket cfg w tids plan F a L :
  freshHost newId → wellFormed w →
  resolvable (w_folders w) (parentFolderId cfg) →
  ensurePass newId cfg (typesFor cfg (scopedActors cfg w))
    (lettersFor cfg (scopedActors cfg w)) (w_folders w) = (tids, plan, F) →
  a ∈ scopedActors cfg w →
  normalizeLetter (a_name a) = Some L →
  ∃ f, applyAll F (planUpdates (groupByType cfg) plan (scopedActors cfg w)) a
       = mkActor (a_id a) (a_name a) (a_type a) (Some f)
       ∧ bucketFolder cfg F (a_type a) L f.
Proof.
  intros Hfresh (HndF & HneF & HndA & Hin) Hp Hpass Hscoped HL.
  assert (Ha : a ∈ w_actors w) by (by apply scopedActors_elem in Hscoped as [_ ?]).
  assert (HLin : L ∈ lettersFor cfg (scopedActors cfg w))
    by by eapply lettersFor_covers.
  destruct (bucket_resolved _ _ _ _ _ _ _ _ Hpass Hp Hscoped HLin)
    as (f & Hplan & Hbucket).
  exists f. split; [|done].
  destruct (ensurePass_invariant newId
              (λ F, NoDup (f_id <$> F) ∧ ∀ f, f ∈ F → f_id f ≠ [])
              _ _ _ _ _ _ _ (λ F n p, storeOK_create F n p Hfresh)
              (conj HndF HneF) Hpass) as [HndF' HneF'].
  destruct (ensurePass_keys _ _ _ _ _ _ _ _ Hpass) as (Hpre & _ & _).
  destruct Hbucket as [Hf _].
  destruct (applyAll_planned cfg w plan F a HndA Ha) as [Hplaced _].
  rewrite (placement_resolved _ plan a L (f_id f) HL Hplan) in Hplaced.
  destruct (f_id f) as [|c fid] eqn:Hfid; [by destruct (HneF' f Hf)|].
  cbn [falsy] in Hplaced. rewrite <- Hfid in *.
  case_bool_decide as Hthere.
  - rewrite Hplaced. destruct (a_folder a) as [g|] eqn:Hg; [|done].
    simpl in Hthere. injection Hthere as Hid.
    assert (g = f) as ->.
    { eapply (NoDup_folder_eq F); [done| |done|done].
      destruct Hpre as [G ->]. apply elem_of_app. left. by eapply Hin. }
    destruct a. simpl in *. by subst.
  - rewrite (Hplaced Hscoped). by rewrite (resolveFolder_NoDup F f HndF' Hf).
Qed.

(** On a well-formed store and with a host that gives fresh ids, a run
    leaves every actor in scope whose name has an ASCII letter in the
    folder of its bucket: the Actor folder named after its letter, under the
    configured root or, when grouping, under the Actor folder named after
    its type. *)
Theorem run_places_actors cfg w (i : nat) a L :
  freshHost newId → wellFormed w →
  resolvable (w_folders w) (parentFolderId cfg) →
  w_actors w !! i = Some a →
  actorInScope a (parentFolderId cfg) (includeSubfolders cfg) = true →
  normalizeLetter (a_name a) = Some L →
  let w' := out_world (runAlphabetizer newId cfg w) in
  ∃ f, w_actors w' !! i = Some (mkActor (a_id a) (a_name a) (a_type a) (Some f))
       ∧ bucketFolder cfg (w_folders w') (a_type a) L f.
Proof.
  intros Hfresh Hwf Hp Hi Hsc HL w'. unfold w'.
  assert (Ha : a ∈ w_actors w) by by eapply list_elem_of_lookup_2.
  assert (Hscoped : a ∈ scopedActors cfg w) by by apply scopedActors_elem.
  assert (HLin : L ∈ lettersFor cfg (scopedActors cfg w))
    by by eapply lettersFor_covers.
  rewrite runAlphabetizer_unfold. cbn zeta.
  rewrite decide_False by (intros Hnil; rewrite Hnil in Hscoped; by apply elem_of_nil in Hscoped).
  rewrite decide_False by (intros Hnil; rewrite Hnil in HLin; by apply elem_of_nil in HLin).
  destruct (ensurePass newId cfg _ _ _) as [[tids plan] F] eqn:Hpass.
  cbn [fst snd out_world w_actors w_folders].
  destruct (placed_in_bucket _ _ _ _ _ _ _ Hfresh Hwf Hp Hpass Hscoped HL)
    as (f & Hplaced & Hbucket).
  exists f. split; [|done].
  by rewrite updateDocuments_map, list_lookup_fmap, Hi; simpl; rewrite Hplaced.
Qed.

(** The ensure pass makes the folder of every bucket that pairs the type
    of an actor in scope with the letter of an actor in scope, also when no
    single actor has both. *)
Theorem every_bucket_ensured cfg w a b L :
  resolvable (w_folders w) (parentFolderId cfg) →
  a ∈ scopedActors cfg w → b ∈ scopedActors cfg w →
  normalizeLetter (a_name b) = Some L →
  ∃ f, bucketFolder cfg (w_folders (out_world (runAlphabetizer newId cfg w)))
         (a_type a) L f.
Proof.
  intros Hp Ha Hb HL.
  assert (HLin : L ∈ lettersFor cfg (scopedActors cfg w))
    by by eapply lettersFor_covers.
  rewrite runAlphabetizer_unfold. cbn zeta.
  rewrite decide_False by (intros Hnil; rewrite Hnil in Ha; by apply elem_of_nil in Ha).
  rewrite decide_False by (intros Hnil; rewrite Hnil in HLin; by apply elem_of_nil in HLin).
  destruct (ensurePass newId cfg _ _ _) as [[tids plan] F] eqn:Hpass.
  cbn [fst snd out_world w_folders].
  destruct (bucket_resolved _ _ _ _ _ _ _ _ Hpass Hp Ha HLin) as (f & _ & Hf).
  by exists f.
Qed.

(** Every folder a run creates is an Actor folder that the run needs: the
    folder of a type of an actor in scope under the configured root (when
    grouping), or the folder of a bucket of the run. *)
Theorem created_folders_shape cfg w (c : Folder) :
  resolvable (w_folders w) (parentFolderId cfg) →
  c ∈ createdBy newId cfg w →
  (groupByType cfg = true
   ∧ ∃ a, a ∈ scopedActors cfg w
          ∧ isChild (String_ (a_type a)) (parentFolderId cfg) c)
  ∨ ∃ a L, a ∈ scopedActors cfg w ∧ L ∈ lettersFor cfg (scopedActors cfg w)
           ∧ bucketFolder cfg
               (w_folders (out_world (runAlphabetizer newId cfg w))) (a_type a) L c.
Proof.
  intros Hp. unfold createdBy. rewrite runAlphabetizer_unfold. cbn zeta.
  destruct (decide (scopedActors cfg w = [])) as [|Hsc].
  { simpl. rewrite drop_all. by intros ?%elem_of_nil. }
  destruct (decide (lettersFor cfg (scopedActors cfg w) = [])) as [|Hl].
  { simpl. rewrite drop_all. by intros ?%elem_of_nil. }
  destruct (ensurePass newId cfg _ _ _) as [[tids plan] F] eqn:Hpass.
  cbn [fst snd out_world w_folders].
  set (actors := scopedActors cfg w) in *.
  set (Q := λ c : Folder,
         (groupByType cfg = true
          ∧ ∃ t, t ∈ typesFor cfg actors
                 ∧ isChild (String_ t) (parentFolderId cfg) c)
         ∨ ∃ t L, t ∈ typesFor cfg actors ∧ L ∈ lettersFor cfg actors
                  ∧ isChild L (baseParentOf (groupByType cfg) (parentFolderId cfg)
                                 tids t) c).
  destruct (ensurePass_spec _ _ _ _ _ _ _ _ Hpass Hp (lettersFor_length _ _))
    as (Hpre & Htypes & _).
  assert (HQ : Forall Q (drop (length (w_folders w)) F)).
  { revert Hpass. unfold ensurePass.
    destruct (if groupByType cfg
              then ensureTypeFolders newId (parentFolderId cfg)
                     (typesFor cfg actors) (∅, w_folders w)
              else (∅, w_folders w)) as [tids1 F1] eqn:Hty.
    destruct (ensureLetterFolders newId (groupByType cfg) (parentFolderId cfg)
                tids1 (typesFor cfg actors) (lettersFor cfg actors) (∅, F1))
      as [plan1 F2] eqn:Hlet.
    intros [= -> -> ->].
    assert (H1 : w_folders w `prefix_of` F1
                 ∧ Forall Q (drop (length (w_folders w)) F1)
                 ∧ ∀ t, t ∈ typesFor cfg actors →
                     resolvable F1 (baseParentOf (groupByType cfg)
                                      (parentFolderId cfg) tids t)).
    { destruct (groupByType cfg) eqn:Hg.
      - rewrite ensureTypeFolders_each in Hty.
        pose proof (ensureEach_spec _ _ _ _ _ _ _ _ _ Hty Hp ltac:(done))
          as (Hpre1 & Hall1 & _).
        split; [done|]. split.
        + eapply (ensureEach_created newId Q); [exact Hty|done| |done|].
          * intros t c' Ht Hc'. left. split; [done|]. by exists t.
          * by rewrite drop_all.
        + intros t Ht. destruct (Hall1 t Ht) as (ft & Hft & Htid).
          unfold baseParentOf. rewrite Htid. exists ft. split; [|done].
          by apply findChildFolder_Some in Hft as [? _].
      - injection Hty as <- <-. split; [done|]. split; [by rewrite drop_all|].
        by intros t Ht. }
    destruct H1 as (Hpre1 & HQ1 & Hres).
    eapply (ensureLetterFolders_created newId Q); [exact Hlet|done| |done|done].
    intros t L c' Ht HL Hc'. right. by exists t, L. }
  intros Hc. rewrite Forall_forall in HQ.
  assert (Hany : ∀ t, t ∈ typesFor cfg actors →
            ∃ a, a ∈ actors ∧ (groupByType cfg = true →
                                String_ t = String_ (a_type a))).
  { intros t Ht. destruct (groupByType cfg) eqn:Hg.
    - apply typesFor_grouped in Ht as (a & Ha & ->); [|done]. by exists a.
    - destruct actors as [|a ?] eqn:Hact; [done|]. exists a. split; [by left|done]. }
  destruct (HQ c Hc) as [(Hg & t & Ht & Hch)|(t & L & Ht & HL & Hch)].
  - left. split; [done|]. destruct (Hany t Ht) as (a & Ha & Heq).
    exists a. split; [done|]. by rewrite <- Heq.
  - right. destruct (Hany t Ht) as (a & Ha & Heq). exists a, L.
    split; [done|]. split; [done|]. split.
    + by apply (subseteq_drop (length (w_folders w)) F).
    + unfold baseParentOf in Hch. destruct (groupByType cfg) eqn:Hg; [|done].
      destruct (Htypes eq_refl t Ht) as (ft & Hft & Htid).
      rewrite Htid in Hch.
      apply findChildFolder_Some in Hft as [Hftin Hftch].
      exists ft. split; [done|]. split; [|done]. by rewrite <- Heq.
Qed.

End RunMore.

(** ** More on: The letters and types of a run *)

Section LettersMore.

Implicit Types (cfg : Config) (actors : list Actor) (L : jsstring).

Lemma jsstr_le_total (a b : jsstring) : jsstr_le a b = true ∨ jsstr_le b a = true.
Proof.
  revert b. induction a as [|x a IH]; intros [|y b]; simpl; auto.
  destruct (N.ltb_spec x y), (N.ltb_spec y x); simpl; auto; try lia.
  assert (x = y) as -> by lia. rewrite N.eqb_refl. simpl. apply IH.
Qed.

#[local] Instance jsstrLe_total : Total jsstrLe.
Proof. intros a b. apply jsstr_le_total. Qed.

Lemma NoDup_setFrom (xs : list jsstring) : NoDup (setFrom xs).
Proof.
  unfold setFrom.
  assert (Hgen : ∀ acc, NoDup acc →
            NoDup (foldl (λ acc x, if bool_decide (x ∈ acc) then acc else acc ++ [x])
                     acc xs)).
  { induction xs as [|x xs IH]; intros acc Hacc; simpl; [done|].
    apply IH. case_bool_decide as Hx; [done|].
    apply NoDup_app. split; [done|]. split; [|apply NoDup_singleton].
    intros y Hy ->%list_elem_of_singleton. done. }
  apply Hgen. constructor.
Qed.

Lemma Sorted_alphabet : Sorted jsstrLe alphabet.
Proof.
  unfold alphabet.
  repeat (apply Sorted_cons; [|by (apply HdRel_nil || (apply HdRel_cons; vm_compute))]).
  apply Sorted_nil.
Qed.

(** The letters of a run are distinct single upper-case ASCII letters in
    ascending order; without [createAllLetters] they are exactly the letters
    of the actors.  The types of a grouped run are the distinct stringified
    types of the actors, in ascending code-unit order. *)
Theorem letters_and_types_sorted_distinct cfg actors :
  NoDup (lettersFor cfg actors)
  ∧ Sorted jsstrLe (lettersFor cfg actors)
  ∧ (∀ L, L ∈ lettersFor cfg actors → L ∈ alphabet)
  ∧ (createAllLetters cfg = false →
     ∀ L, L ∈ lettersFor cfg actors
          ↔ ∃ a, a ∈ actors ∧ normalizeLetter (a_name a) = Some L)
  ∧ NoDup (typesFor cfg actors)
  ∧ (groupByType cfg = true →
     ∃ names, typesFor cfg actors = JStr <$> names
              ∧ Sorted jsstrLe names
              ∧ ∀ s, s ∈ names ↔ ∃ a, a ∈ actors ∧ s = String_ (a_type a)).
Proof.
  split; [|split; [|split; [|split; [|split]]]].
  - unfold lettersFor. destruct (createAllLetters cfg); [apply NoDup_alphabet|].
    unfold sortStrings. rewrite merge_sort_Permutation. apply NoDup_setFrom.
  - unfold lettersFor. destruct (createAllLetters cfg); [apply Sorted_alphabet|].
    apply Sorted_merge_sort. apply _.
  - intros L HL. apply elem_of_alphabet.
    pose proof (lettersFor_length cfg actors) as Hlen.
    destruct (createAllLetters cfg) eqn:Hall.
    + unfold lettersFor in HL. rewrite Hall in HL. by apply elem_of_alphabet.
    + apply lettersFor_from_actor in HL as (a & _ & HL); [|done].
      by apply normalizeLetter_Some in HL.
  - intros Hall L. split; [by apply lettersFor_from_actor|].
    intros (a & Ha & HL). by eapply lettersFor_covers.
  - unfold typesFor. destruct (groupByType cfg); [|apply NoDup_singleton].
    apply NoDup_fmap_2_strong; [by intros x y _ _ [= ->]|].
    unfold sortStrings. rewrite merge_sort_Permutation. apply NoDup_setFrom.
  - intros Hg. unfold typesFor. rewrite Hg. eexists. split; [done|].
    split; [apply Sorted_merge_sort; apply _|].
    intros s. rewrite elem_of_sortStrings, elem_of_setFrom.
    change (map (λ a, String_ (a_type a)) actors)
      with ((λ a, String_ (a_type a)) <$> actors).
    rewrite list_elem_of_fmap. naive_solver.
Qed.

End LettersMore.

(** ** The further properties on small worlds *)

Section ExtraExamples.

Lemma longNewId_fresh : freshHost longNewId.
Proof.
  intros fs. split; [|done]. unfold longNewId.
  intros (f & Hid & Hf)%list_elem_of_fmap.
  apply (f_equal length) in Hid. rewrite length_replicate in Hid.
  assert (Hle : (length (f_id f) ≤ max_list (length ∘ f_id <$> fs))%nat).
  { apply max_list_elem_of_le, list_elem_of_fmap. by exists f. }
  lia.
Qed.

Lemma nestedWorld_actor_folders :
  filter (λ f, f_type f = Actor_) (w_folders nestedWorld) = [folderP; folderQ].
Proof. by vm_compute. Qed.

Lemma nestedWorld_acyclic : acyclic (w_folders nestedWorld).
Proof.
  apply (acyclic_of_rank _ (λ i, if bool_decide (i = js "idQ"%string) then 1 else 0)%nat).
  repeat constructor.
Qed.

Lemma nestedWorld_wellFormed : wellFormed nestedWorld.
Proof.
  split; [|split; [|split]].
  - apply (bool_decide_unpack (NoDup (f_id <$> w_folders nestedWorld))). by vm_compute.
  - intros f Hf. simpl in Hf.
    repeat (apply elem_of_cons in Hf as [->|Hf]; [done|]). by apply elem_of_nil in Hf.
  - apply (bool_decide_unpack (NoDup (a_id <$> w_actors nestedWorld))). by vm_compute.
  - intros a g Ha Hg. simpl in Ha.
    repeat (apply elem_of_cons in Ha as [->|Ha];
            [simpl in Hg; try done; injection Hg as <-; set_solver|]).
    by apply elem_of_nil in Ha.
Qed.

Lemma buildDescendantsMemo_descendants_witness :
  ∃ memo s, buildDescendantsMemo 2 (w_folders nestedWorld) = Some memo
            ∧ memo !! js "idP"%string = Some s
            ∧ js "idQ"%string ∈ s.
Proof.
  destruct (buildDescendantsMemo_descendants 2 (w_folders nestedWorld)
              nestedWorld_acyclic) as (memo & Hm & Hall); [simpl; lia|].
  destruct (Hall folderP) as (s & Hs & Hmem); [by left|].
  exists memo, s. split; [done|]. split; [done|].
  apply Hmem, rtc_once. exists folderQ. split; [by right; left | done].
Defined.

Lemma buildDescendantsMemo_returns_iff_acyclic_witness :
  buildDescendantsMemo 100 cyclicFolders = None.
Proof.
  destruct (buildDescendantsMemo_returns_iff_acyclic cyclicFolders) as [_ Hnone].
  eapply (Hnone _ 100%nat); [by left|].
  eapply tc_l; [|apply tc_once].
  - eexists. split; [by left|]. split; done.
  - eexists. split; [by right; left|]. split; done.
Defined.

Lemma counts_match_scope_witness :
  ∃ memo, buildDescendantsMemo 2 [folderP; folderQ] = Some memo
          ∧ countActorsForFolder (js "idP"%string) (w_actors nestedWorld) memo
            = (1, 2)%nat
          ∧ length (scopedActors (mkConfig false false (Some (js "idP"%string)) true)
                      nestedWorld) = 2%nat.
Proof.
  destruct (counts_match_scope 2 nestedWorld folderP false false)
    as (memo & Hm & Hcount).
  - rewrite nestedWorld_actor_folders.
    apply (bool_decide_unpack (NoDup (f_id <$> [folderP; folderQ]))). by vm_compute.
  - rewrite nestedWorld_actor_folders. intros f p Hf Hp.
    repeat (apply elem_of_cons in Hf as [->|Hf];
            [simpl in Hp; try done; injection Hp as <-; set_solver|]).
    by apply elem_of_nil in Hf.
  - rewrite nestedWorld_actor_folders.
    by destruct nestedWorld_wellFormed as (_ & _ & _ & ?).
  - rewrite nestedWorld_actor_folders. simpl. lia.
  - rewrite nestedWorld_actor_folders. by left.
  - rewrite nestedWorld_actor_folders in Hm. exists memo. split; [done|].
    change (f_id folderP) with (js "idP"%string) in Hcount.
    split; [rewrite Hcount; by vm_compute | by vm_compute].
Defined.

Lemma dialog_options_structure_witness :
  ∃ rest, shownOptions (openAlphabetizerDialog true jsstr_le 2 nestedWorld)
          = rootOption nestedWorld :: rest
          ∧ length rest = 2%nat
          ∧ Sorted (optionLe jsstr_le) rest.
Proof.
  destruct (dialog_options_structure jsstr_le 2 nestedWorld
              (shownOptions (openAlphabetizerDialog true jsstr_le 2 nestedWorld)))
    as (rest & Hopts & Hperm & Hsorted); [by vm_compute|].
  exists rest. split; [done|]. split.
  - rewrite <- (length_fmap o_id), Hperm, nestedWorld_actor_folders. done.
  - apply Hsorted, jsstr_le_total.
Defined.

Lemma unique_breadcrumb_plain_label_witness :
  mkOption (js "idQ"%string) (js "Party / Heroes (1/1)"%string)
  ∈ shownOptions (openAlphabetizerDialog true jsstr_le 2 nestedWorld).
Proof.
  destruct (unique_breadcrumb_plain_label jsstr_le 2 nestedWorld
              (shownOptions (openAlphabetizerDialog true jsstr_le 2 nestedWorld))
              1 folderQ) as (memo & Hm & Hin).
  - by vm_compute.
  - by rewrite nestedWorld_actor_folders.
  - rewrite nestedWorld_actor_folders. intros [|[|j]] g Hg Hcrumb; [|done|done].
    injection Hg as <-. by vm_compute in Hcrumb.
  - rewrite nestedWorld_actor_folders in Hm.
    assert (Hmemo : memo = default ∅ (buildDescendantsMemo 2 [folderP; folderQ]))
      by by rewrite Hm.
    rewrite Hmemo in Hin. vm_compute in Hin. vm_compute. exact Hin.
Defined.

Lemma dialog_config_resolvable_witness :
  let fd := mkFormData (JStr (js "on"%string)) JNull (JStr (js "idQ"%string))
              (JStr (js "on"%string)) in
  configOfForm fd = mkConfig true false (Some (js "idQ"%string)) true
  ∧ resolvable (w_folders nestedWorld) (parentFolderId (configOfForm fd)).
Proof.
  intros fd. split; [by vm_compute|].
  destruct (dialog_config_resolvable jsstr_le 2 nestedWorld
              (shownOptions (openAlphabetizerDialog true jsstr_le 2 nestedWorld))
              (mkOption (js "idQ"%string) (js "Party / Heroes (1/1)"%string)) fd)
    as [Hres _]; [by vm_compute| |done|done].
  vm_compute. do 2 right. by left.
Defined.

Lemma ensureFolder_twice_witness :
  let r := ensureFolder longNewId (js "A"%string) (Some (js "idP"%string))
             (w_folders nestedWorld) in
  length r.2 = 3%nat
  ∧ ensureFolder longNewId (js "A"%string) (Some (js "idP"%string)) r.2 = r.
Proof.
  intros r. split; [by vm_compute|].
  destruct (ensureFolder_twice longNewId (js "A"%string) (Some (js "idP"%string))
              (w_folders nestedWorld)) as (Htwice & _).
  - exists folderP. split; [by left | done].
  - exact Htwice.
Defined.

Lemma run_leaves_others_witness :
  let cfg := mkConfig false false (Some (js "idQ"%string)) true in
  w_actors (out_world (runAlphabetizer longNewId cfg nestedWorld)) !! 1%nat
  = w_actors nestedWorld !! 1%nat.
Proof.
  intros cfg.
  destruct nestedWorld_wellFormed as (_ & _ & Hnd & _).
  erewrite (run_leaves_others longNewId cfg nestedWorld 1); [done|done|done|].
  left. by vm_compute.
Defined.

Lemma run_updates_well_formed_witness :
  let cfg := mkConfig false true (Some (js "idP"%string)) true in
  let r := runAlphabetizer longNewId cfg nestedWorld in
  length (out_updates r) = 2%nat ∧ NoDup (out_updates r).*1.
Proof.
  intros cfg r.
  destruct nestedWorld_wellFormed as (_ & _ & Hnd & _).
  destruct (run_updates_well_formed longNewId cfg nestedWorld Hnd) as (Hnodup & _).
  split; [by vm_compute | exact Hnodup].
Defined.

Lemma run_places_actors_witness :
  let cfg := mkConfig false true (Some (js "idP"%string)) true in
  let w' := out_world (runAlphabetizer longNewId cfg nestedWorld) in
  ∃ f ft, w_actors w' !! 0%nat
          = Some (mkActor (js "a1"%string) (JStr (js "Aang"%string))
                    (JStr (js "hero"%string)) (Some f))
          ∧ f_name f = js "A"%string
          ∧ f_folder f = Some ft ∧ f_name ft = js "hero"%string
          ∧ f_folder ft = Some folderP.
Proof.
  intros cfg w'.
  destruct (run_places_actors longNewId cfg nestedWorld 0
              (mkActor (js "a1"%string) (JStr (js "Aang"%string))
                 (JStr (js "hero"%string)) (Some folderQ)) (js "A"%string)
              longNewId_fresh nestedWorld_wellFormed)
    as (f & Hf & Hbucket); [by exists folderP; split; [left|] | done
                           | by vm_compute | by vm_compute |].
  fold w' in Hf. revert Hf. vm_compute. intros [= <-].
  eexists _, _. repeat split.
Defined.

Lemma every_bucket_ensured_witness :
  let cfg := mkConfig false true (Some (js "idP"%string)) true in
  ∃ f, bucketFolder cfg
         (w_folders (out_world (runAlphabetizer longNewId cfg nestedWorld)))
         (JStr (js "hero"%string)) (js "B"%string) f.
Proof.
  intros cfg.
  eapply (every_bucket_ensured longNewId cfg nestedWorld
            (mkActor (js "a1"%string) (JStr (js "Aang"%string))
               (JStr (js "hero"%string)) (Some folderQ))
            (mkActor (js "a2"%string) (JStr (js "bob"%string))
               (JStr (js "npc"%string)) (Some folderP))).
  - exists folderP. split; [by left | done].
  - vm_compute. by left.
  - vm_compute. right. by left.
  - by vm_compute.
Defined.

Lemma created_folders_shape_witness :
  let cfg := mkConfig false false (Some (js "idP"%string)) false in
  ∃ c, createdBy longNewId cfg nestedWorld = [c]
       ∧ isChild (js "B"%string) (Some (js "idP"%string)) c.
Proof.
  intros cfg.
  assert (Hc : ∃ c, createdBy longNewId cfg nestedWorld = [c]) by (eexists; by vm_compute).
  destruct Hc as [c Hc]. exists c. split; [done|].
  destruct (created_folders_shape longNewId cfg nestedWorld c)
    as [[Hg _]|(a & L & Ha & HL & _ & Hch)].
  - exists folderP. split; [by left | done].
  - rewrite Hc. by left.
  - done.
  - cbn [groupByType cfg] in Hch.
    assert (L = js "B"%string) as ->; [|exact Hch].
    vm_compute in HL. by apply list_elem_of_singleton in HL.
Defined.

End ExtraExamples.

(** ** More on: The scope after a run *)

Section ScopeAfter.

Variable newId : list Folder → id.

Implicit Types (F : list Folder) (cfg : Config) (w : World) (a : Actor) (L : jsstring).

Lemma storeClosed_create F (n : jsstring) (p : option id) :
  freshHost newId →
  (NoDup (f_id <$> F) ∧ (∀ f, f ∈ F → f_id f ≠ [])) ∧ parentClosed F →
  (NoDup (f_id <$> (F ++ [createFolder newId F n p]))
   ∧ (∀ f, f ∈ F ++ [createFolder newId F n p] → f_id f ≠ []))
  ∧ parentClosed (F ++ [createFolder newId F n p]).
Proof.
  intros Hfresh [Hok Hcl]. split; [by apply storeOK_create|].
  intros f q [Hf| ->%list_elem_of_singleton]%elem_of_app Hq; apply elem_of_app; left.
  - by eapply Hcl.
  - simpl in Hq. destruct p as [pid|]; [|done]. simpl in Hq.
    unfold resolveFolder in Hq.
    destruct (list_find (λ g, f_id g = pid) F) as [[j g]|] eqn:Hfind; [|done].
    simpl in Hq. injection Hq as <-.
    apply list_find_Some in Hfind as (Hj & _). by eapply list_elem_of_lookup_2.
Qed.

(** Where a placed actor stands with respect to a chosen folder: on a
    well-formed store closed under parents, an actor that a run scoped to
    the folder [P] has put in its bucket is in a strict descendant of [P];
    it is still in scope with subfolders included, and no longer in scope
    without them. *)
Theorem placed_actor_scope cfg w (P : id) (i : nat) a L :
  freshHost newId → wellFormed w → parentClosed (w_folders w) →
  parentFolderId cfg = Some P →
  resolvable (w_folders w) (Some P) →
  w_actors w !! i = Some a →
  actorInScope a (Some P) (includeSubfolders cfg) = true →
  normalizeLetter (a_name a) = Some L →
  ∃ a', w_actors (out_world (runAlphabetizer newId cfg w)) !! i = Some a'
        ∧ actorInScope a' (Some P) true = true
        ∧ actorInScope a' (Some P) false = false.
Proof.
  intros Hfresh Hwf Hcl HP Hp Hi Hsc HL.
  pose proof Hwf as (HndF & HneF & _ & _).
  assert (Ha : a ∈ w_actors w) by by eapply list_elem_of_lookup_2.
  assert (Hscoped : a ∈ scopedActors cfg w)
    by (apply scopedActors_elem; by rewrite HP).
  assert (HLin : L ∈ lettersFor cfg (scopedActors cfg w))
    by by eapply lettersFor_covers.
  rewrite runAlphabetizer_unfold. cbn zeta.
  rewrite decide_False by (intros Hnil; rewrite Hnil in Hscoped; by apply elem_of_nil in Hscoped).
  rewrite decide_False by (intros Hnil; rewrite Hnil in HLin; by apply elem_of_nil in HLin).
  destruct (ensurePass newId cfg _ _ _) as [[tids plan] F] eqn:Hpass.
  cbn [fst snd out_world w_actors w_folders].
  destruct (placed_in_bucket newId cfg w tids plan F a L Hfresh Hwf)
    as (f & Hplaced & Hin & Hbucket); [by rewrite HP|done|done|done|].
  rewrite updateDocuments_map, list_lookup_fmap, Hi. simpl.
  eexists. split; [by rewrite Hplaced|].
  (* the store after the run is still closed, with distinct ids *)
  destruct (ensurePass_invariant newId
              (λ F, (NoDup (f_id <$> F) ∧ (∀ f, f ∈ F → f_id f ≠ []))
                    ∧ parentClosed F)
              _ _ _ _ _ _ _ (λ F n p, storeClosed_create F n p Hfresh)
              (conj (conj HndF HneF) Hcl) Hpass) as [[Hnd' _] Hcl'].
  pose proof (closed_store_acyclic F Hnd' Hcl') as Hac.
  (* the bucket folder is a strict descendant of [P] *)
  assert (Hdesc : strictDescendantOf f P).
  { rewrite HP in Hbucket. destruct (groupByType cfg).
    - destruct Hbucket as (ft & Hft & (_ & _ & Hftp) & (_ & _ & Hfp)).
      destruct (f_folder f) as [q|] eqn:Hq; [|by unfold folderIdOf in *]. simpl in Hfp.
      injection Hfp as Hqid.
      assert (q = ft) as ->.
      { eapply (NoDup_folder_eq F); [done| |done|done]. exact (Hcl' f q Hin Hq). }
      destruct (f_folder ft) as [r|] eqn:Hr; [|by unfold folderIdOf in *]. simpl in Hftp.
      injection Hftp as Hrid.
      exists r. split; [|done].
      eapply ancestor_up; [exact Hq|]. by apply ancestor_parent.
    - destruct Hbucket as (_ & _ & Hfp).
      destruct (f_folder f) as [q|] eqn:Hq; [|by unfold folderIdOf in *]. simpl in Hfp.
      injection Hfp as Hqid. exists q. split; [by apply ancestor_parent | done]. }
  assert (Hne : f_id f ≠ P).
  { intros Heq. apply (Hac P).
    rewrite <- Heq at 1. by apply tc_childOf_chain. }
  unfold actorInScope. simpl.
  rewrite bool_decide_eq_false_2 by congruence. simpl.
  split; [|done]. by apply isDescendantFolder_iff.
Qed.

End ScopeAfter.

Lemma nestedWorld_closed : parentClosed (w_folders nestedWorld).
Proof.
  intros f p Hf Hp. simpl in Hf.
  repeat (apply elem_of_cons in Hf as [->|Hf];
          [simpl in Hp; try done; injection Hp as <-; set_solver|]).
  by apply elem_of_nil in Hf.
Qed.

Lemma placed_actor_scope_witness :
  let cfg := mkConfig false true (Some (js "idP"%string)) false in
  ∃ a', w_actors (out_world (runAlphabetizer longNewId cfg nestedWorld)) !! 1%nat
        = Some a'
        ∧ actorInScope a' (Some (js "idP"%string)) true = true
        ∧ actorInScope a' (Some (js "idP"%string)) false = false.
Proof.
  intros cfg.
  eapply (placed_actor_scope longNewId cfg nestedWorld (js "idP"%string) 1
            (mkActor (js "a2"%string) (JStr (js "bob"%string))
               (JStr (js "npc"%string)) (Some folderP)) (js "B"%string)
            longNewId_fresh nestedWorld_wellFormed nestedWorld_closed eq_refl).
  - exists folderP. split; [by left | done].
  - done.
  - by vm_compute.
  - by vm_compute.
Defined.
